(** * Name resolution of the messaging SDK: channel names and SuiNS names

    A shallow embedding of [packages/messaging/src/utils/channelResolution.ts]
    (the channel-name classifier and normaliser, [LocalChannelRegistry],
    [PersistentChannelRegistry]) and of the address resolver that follows it
    in the same unit ([isSuiNSName], [SuiNSResolver]).

    Conventions of the embedding.
    - A JavaScript string is modelled by a [string] whose characters are its
      UTF-16 code units; the model covers the strings whose code units are
      all below 256 (Latin-1).  That set is closed under every string
      operation the code uses ([trim], [toLowerCase], [startsWith],
      [endsWith], [slice], template strings).
    - A JavaScript [Map<string, string>] is a [gmap string string]: [get] is
      lookup, [set] is insert, [delete] is delete, [size] is the number of
      keys.  The order in which a [Map] enumerates its entries is not part
      of the model.
    - A [Record<string, string>] handed to the code is the list of its
      entries in the order [Object.entries] enumerates them.  An object
      that the code creates with [{}] and fills by assignment is the map of
      its own properties; the assignment follows [JS.setProperty].
    - A value of type [string | undefined] is an [option string]; where the
      code tests such a value for truthiness, the model asks for [Some s]
      with [s] other than the empty string.
    - A method that may throw returns an [Outcome]; a method that also
      mutates the registry runs in the monad [Local.M], which threads the
      two maps and the outcome.
    - [Promise.all] takes the order in which the promises settle as an
      explicit argument. *)

From Stdlib Require Import Ascii String NArith.
From stdpp Require Import gmap strings list fin_maps.

Local Open Scope string_scope.

(** ** JavaScript strings *)

Module JS.

(** [WhiteSpace] and [LineTerminator] code units below 256: TAB, LF, VT,
    FF, CR, SP and NBSP. These are what [String.prototype.trim] strips. *)
Definition isWhiteSpace (c : ascii) : bool :=
  let n := N_of_ascii c in
  ((9 <=? n) && (n <=? 13) || (n =? 32) || (n =? 160))%N.

(** Lower-case mapping of one code unit: A-Z, and the Latin-1 capitals
    U+00C0..U+00DE except the multiplication sign U+00D7. *)
Definition toLowerCaseChar (c : ascii) : ascii :=
  let n := N_of_ascii c in
  if ((65 <=? n) && (n <=? 90)
      || (192 <=? n) && (n <=? 222) && negb (n =? 215))%N
  then ascii_of_N (n + 32)
  else c.

Fixpoint toLowerCase (s : string) : string :=
  match s with
  | EmptyString => EmptyString
  | String c s' => String (toLowerCaseChar c) (toLowerCase s')
  end.

Fixpoint trimStart (s : string) : string :=
  match s with
  | EmptyString => EmptyString
  | String c s' => if isWhiteSpace c then trimStart s' else s
  end.

Fixpoint trimEnd (s : string) : string :=
  match s with
  | EmptyString => EmptyString
  | String c s' =>
      match trimEnd s' with
      | EmptyString => if isWhiteSpace c then EmptyString else String c EmptyString
      | t => String c t
      end
  end.

Definition trim (s : string) : string := trimEnd (trimStart s).

Definition startsWith (s searchString : string) : bool :=
  String.prefix searchString s.

Definition endsWith (s searchString : string) : bool :=
  let n := String.length s in
  let k := String.length searchString in
  (k <=? n)%nat && String.eqb (String.substring (n - k) k s) searchString.

(** [s.slice(1)] *)
Definition slice1 (s : string) : string :=
  match s with
  | EmptyString => EmptyString
  | String _ s' => s'
  end.

(** [result[key] = value] with a string value, on an object created by
    [{}] and given by the map of its own properties.  [__proto__] is the
    accessor that the object inherits from [Object.prototype]: assigning
    to it runs the inherited setter, which ignores a value that is neither
    an object nor [null], so no property is created.  Any other key becomes
    an own property with the value, replacing the one it had. *)
Definition setProperty (key value : string) (result : gmap string string)
  : gmap string string :=
  if String.eqb key "__proto__" then result else <[key:=value]> result.

End JS.

(** ** Errors and outcomes *)

(** [new Error(message)] *)
Inductive Error : Type := mkError (message : string).

Definition message (e : Error) : string :=
  match e with mkError m => m end.

Inductive Outcome (A : Type) : Type :=
| Returns (a : A)
| Throws (e : Error).
Arguments Returns {A} a.
Arguments Throws {A} e.

(** ** [Promise.all] *)

Module Promise.

(** The first promise to reject, following the order in which they settle. *)
Fixpoint firstRejection {A} (order : list nat) (settled : list (Outcome A))
  : option Error :=
  match order with
  | [] => None
  | i :: order' =>
      match settled !! i with
      | Some (Throws e) => Some e
      | _ => firstRejection order' settled
      end
  end.

(** The values positionally, when every promise is fulfilled. *)
Fixpoint values {A} (settled : list (Outcome A)) : Outcome (list A) :=
  match settled with
  | [] => Returns []
  | Returns a :: rest =>
      match values rest with
      | Returns l => Returns (a :: l)
      | Throws e => Throws e
      end
  | Throws e :: _ => Throws e
  end.

(** [Promise.all(promises)]: rejects with the reason of the first promise
    that rejects; otherwise fulfils with the values in the order of the
    input array. *)
Definition all {A} (order : list nat) (settled : list (Outcome A))
  : Outcome (list A) :=
  match firstRejection order settled with
  | Some e => Throws e
  | None => values settled
  end.

(** Promises that are already settled when [Promise.all] subscribes to
    them are handled in the order of the array. *)
Definition arrayOrder {A} (settled : list A) : list nat :=
  seq 0 (length settled).

End Promise.

(** ** Classifier and normaliser of channel names *)

Definition isChannelName (input : string) : bool :=
  if String.eqb input "" then false
  else if JS.startsWith input "#" then true
  else if JS.startsWith input "0x" then false
  else true.

Definition normalizeChannelName (name : string) : string :=
  let normalized := JS.toLowerCase (JS.trim name) in
  if JS.startsWith normalized "#" then JS.slice1 normalized else normalized.

Definition formatChannelName (name : string) : string :=
  let normalized := normalizeChannelName name in
  "#" +:+ normalized.

(** ** [LocalChannelRegistry] *)

Record LocalChannelRegistry : Type := {
  nameToId : gmap string string;
  idToName : gmap string string
}.

Module Local.

(** *** The monad of the mutating methods: registry state and exceptions *)

Definition M (A : Type) : Type :=
  LocalChannelRegistry → Outcome A * LocalChannelRegistry.

Definition ret {A} (a : A) : M A := λ this, (Returns a, this).

Definition throw {A} (e : Error) : M A := λ this, (Throws e, this).

Definition bind {A B} (m : M A) (k : A → M B) : M B :=
  λ this,
    match m this with
    | (Returns a, this') => k a this'
    | (Throws e, this') => (Throws e, this')
    end.

Notation "'let*' x ':=' m 'in' k" := (bind m (λ x, k))
  (at level 10, x name, m at level 100, k at level 200, only parsing).
Notation "m ';;;' k" := (bind m (λ _, k))
  (at level 100, k at level 200, right associativity, only parsing).

Definition nameToId_get (key : string) : M (option string) :=
  λ this, (Returns (nameToId this !! key), this).
Definition nameToId_set (key value : string) : M unit :=
  λ this, (Returns tt,
           {| nameToId := <[key:=value]> (nameToId this); idToName := idToName this |}).
Definition nameToId_delete (key : string) : M unit :=
  λ this, (Returns tt,
           {| nameToId := delete key (nameToId this); idToName := idToName this |}).
Definition nameToId_clear : M unit :=
  λ this, (Returns tt, {| nameToId := ∅; idToName := idToName this |}).

Definition idToName_get (key : string) : M (option string) :=
  λ this, (Returns (idToName this !! key), this).
Definition idToName_set (key value : string) : M unit :=
  λ this, (Returns tt,
           {| nameToId := nameToId this; idToName := <[key:=value]> (idToName this) |}).
Definition idToName_delete (key : string) : M unit :=
  λ this, (Returns tt,
           {| nameToId := nameToId this; idToName := delete key (idToName this) |}).
Definition idToName_clear : M unit :=
  λ this, (Returns tt, {| nameToId := nameToId this; idToName := ∅ |}).

(** [for (const x of xs) body(x)] *)
Fixpoint forEach {A} (xs : list A) (body : A → M unit) : M unit :=
  match xs with
  | [] => ret tt
  | x :: xs' => body x ;;; forEach xs' body
  end.

(** The state a method leaves behind, and what it returned or threw. *)
Definition state {A} (m : M A) (this : LocalChannelRegistry) : LocalChannelRegistry :=
  snd (m this).
Definition outcome {A} (m : M A) (this : LocalChannelRegistry) : Outcome A :=
  fst (m this).

(** *** The class *)

(** The field initialisers: two empty maps. *)
Definition empty : LocalChannelRegistry := {| nameToId := ∅; idToName := ∅ |}.

(** The body of the loop shared by the constructor and [import]. *)
Definition setEntry (entry : string * string) : M unit :=
  let '(name, channelId) := entry in
  let normalized := normalizeChannelName name in
  nameToId_set normalized channelId ;;;
  idToName_set channelId normalized.

(** [new LocalChannelRegistry(initialMappings)]; [None] is the omitted
    argument. *)
Definition constructor (initialMappings : option (list (string * string)))
  : LocalChannelRegistry :=
  match initialMappings with
  | Some entries => state (forEach entries setEntry) empty
  | None => empty
  end.

Definition notFound (nameOrId : string) : Error :=
  mkError ("Channel name not found: " +:+ formatChannelName nameOrId).

Definition resolve (this : LocalChannelRegistry) (nameOrId : string) : Outcome string :=
  if negb (isChannelName nameOrId) then Returns nameOrId
  else
    let normalized := normalizeChannelName nameOrId in
    let channelId := nameToId this !! normalized in
    match channelId with
    | Some id => if String.eqb id "" then Throws (notFound nameOrId) else Returns id
    | None => Throws (notFound nameOrId)
    end.

Definition resolveMany (this : LocalChannelRegistry) (namesOrIds : list string)
  : Outcome (list string) :=
  let promises := map (resolve this) namesOrIds in
  Promise.all (Promise.arrayOrder promises) promises.

Definition reverseLookup (this : LocalChannelRegistry) (channelId : string)
  : option string :=
  match idToName this !! channelId with
  | Some name => if String.eqb name "" then None else Some (formatChannelName name)
  | None => None
  end.

Definition alreadyRegistered (name existingId : string) : Error :=
  mkError ("Channel name " +:+ formatChannelName name
           +:+ " is already registered to " +:+ existingId).

Definition register (name channelId : string) : M unit :=
  let normalized := normalizeChannelName name in
  let* existingId := nameToId_get normalized in
  match existingId with
  | Some existing =>
      if negb (String.eqb existing "") && negb (String.eqb existing channelId)
      then throw (alreadyRegistered name existing)
      else ret tt
  | None => ret tt
  end ;;;
  let* existingName := idToName_get channelId in
  match existingName with
  | Some existing =>
      if negb (String.eqb existing "") && negb (String.eqb existing normalized)
      then nameToId_delete existing
      else ret tt
  | None => ret tt
  end ;;;
  nameToId_set normalized channelId ;;;
  idToName_set channelId normalized.

Definition unregister (name : string) : M unit :=
  let normalized := normalizeChannelName name in
  let* channelId := nameToId_get normalized in
  match channelId with
  | Some id =>
      if negb (String.eqb id "")
      then nameToId_delete normalized ;;; idToName_delete id
      else ret tt
  | None => ret tt
  end.

(** [export()]: the object that the loop fills from the entries of the
    name-to-id map, by [result[name] = channelId]; the record returned is
    given by its entries.  The order in which JavaScript enumerates them
    (integer-like keys first, the others in order of insertion) is not
    part of the model. *)
Definition export (this : LocalChannelRegistry) : list (string * string) :=
  map_to_list (map_fold JS.setProperty ∅ (nameToId this)).

Definition clear : M unit :=
  nameToId_clear ;;; idToName_clear.

Definition import (data : list (string * string)) (merge : bool) : M unit :=
  (if negb merge then nameToId_clear ;;; idToName_clear else ret tt) ;;;
  forEach data setEntry.

Definition size (this : LocalChannelRegistry) : nat :=
  size (nameToId this).

(** The loop of [list()]: the result map filled from the entries of the
    name-to-id map, taken in the order the map enumerates them.  That
    order is the order of insertion, which the maps of the model do not
    keep, so the entries are an argument. *)
Definition listFrom (entries : list (string * string)) : gmap string string :=
  fold_left (λ result entry, <[formatChannelName entry.1 := entry.2]> result) entries ∅.

End Local.

(** ** The external key/value store ([localStorage]) *)

(** A Web Storage area: its items, and the host's verdict on whether a
    prospective content still fits the quota. [setItem] on a content that
    does not fit throws [QuotaExceededError] and stores nothing. *)
Record Storage : Type := {
  items : gmap string string;
  fits : gmap string string → bool
}.

Definition getItem (storage : Storage) (key : string) : option string :=
  items storage !! key.

(** [None]: the call throws. *)
Definition setItem (storage : Storage) (key value : string) : option Storage :=
  let items' := <[key:=value]> (items storage) in
  if fits storage items'
  then Some {| items := items'; fits := fits storage |}
  else None.

(** ** [PersistentChannelRegistry] *)

(** The inherited maps, and the two private fields. [storage] is [None]
    where [localStorage] is not defined. *)
Record PersistentChannelRegistry : Type := {
  super : LocalChannelRegistry;
  storageKey : string;
  storage : option Storage
}.

Module Persistent.
Section WithJSON.

(** [JSON.stringify] on the entries of a [Record<string, string>]. *)
Variable JSON_stringify : list (string * string) → string.

(** [JSON.parse]: [None] when it throws [SyntaxError]; otherwise the
    entries that [Object.entries] enumerates of the parsed value (none
    for [null], numbers and booleans: with such a value the constructor
    and [reload] end in the same state as with an empty object). *)
Variable JSON_parse : string → option (list (string * string)).

Definition M (A : Type) : Type :=
  PersistentChannelRegistry → Outcome A * PersistentChannelRegistry.

Definition withSuper (this : PersistentChannelRegistry) (base : LocalChannelRegistry)
  : PersistentChannelRegistry :=
  {| super := base; storageKey := storageKey this; storage := storage this |}.

(** Running an inherited method on the inherited maps. *)
Definition inherited {A} (m : Local.M A) : M A :=
  λ this, let '(result, base) := m (super this) in (result, withSuper this base).

(** [new PersistentChannelRegistry(storageKey)], with the ambient
    [localStorage] as an argument. *)
Definition constructor (key : string) (localStorage : option Storage)
  : PersistentChannelRegistry :=
  let initialData :=
    match localStorage with
    | Some store =>
        (* try *)
        match getItem store key with
        | Some stored =>
            if String.eqb stored "" then None
            else JSON_parse stored (* catch: start fresh *)
        | None => None
        end
    | None => None
    end in
  {| super := Local.constructor initialData;
     storageKey := key;
     storage := localStorage |}.

(** [#persist()] *)
Definition persist (this : PersistentChannelRegistry) : PersistentChannelRegistry :=
  match storage this with
  | Some store =>
      match setItem store (storageKey this) (JSON_stringify (Local.export (super this))) with
      | Some store' =>
          {| super := super this; storageKey := storageKey this; storage := Some store' |}
      | None => this
      end
  | None => this
  end.

Definition register (name channelId : string) : M unit :=
  λ this,
    match inherited (Local.register name channelId) this with
    | (Returns _, this') => (Returns tt, persist this')
    | (Throws e, this') => (Throws e, this')
    end.

Definition unregister (name : string) : M unit :=
  λ this,
    match inherited (Local.unregister name) this with
    | (Returns _, this') => (Returns tt, persist this')
    | (Throws e, this') => (Throws e, this')
    end.

(** [import] and [clear] are not overridden. *)
Definition import (data : list (string * string)) (merge : bool) : M unit :=
  inherited (Local.import data merge).

Definition clear : M unit :=
  inherited Local.clear.

Definition save (this : PersistentChannelRegistry) : PersistentChannelRegistry :=
  persist this.

Definition reload (this : PersistentChannelRegistry) : PersistentChannelRegistry :=
  match storage this with
  | Some store =>
      (* try *)
      match getItem store (storageKey this) with
      | Some stored =>
          if String.eqb stored "" then this
          else
            match JSON_parse stored with
            | Some data => snd (import data false this)
            | None => this (* catch: ignore parse errors *)
            end
      | None => this
      end
  | None => this
  end.

End WithJSON.
End Persistent.

(** ** Address resolution through SuiNS *)

Definition isSuiNSName (input : string) : bool :=
  JS.endsWith (JS.toLowerCase input) ".sui".

(** The part of a name record the resolver reads. [None] stands for a
    missing, [undefined] or [null] [targetAddress]. *)
Record NameRecord : Type := {
  targetAddress : option string
}.

(** How the promise of [getNameRecord] settles. *)
Inductive Reply : Type :=
| Fulfils (record : option NameRecord)
| Rejects (reason : Error).

Record SuinsClient : Type := {
  getNameRecord : string → Reply
}.

Record SuiNSResolver : Type := {
  suinsClient : SuinsClient
}.

Module SuiNS.

Definition failed (nameOrAddress : string) : Error :=
  mkError ("Failed to resolve SuiNS name: " +:+ nameOrAddress).

(** [resolve] yields its outcome and the arguments of the calls it made
    to [getNameRecord]. *)
Definition resolve (this : SuiNSResolver) (nameOrAddress : string)
  : Outcome string * list string :=
  if negb (isSuiNSName nameOrAddress) then (Returns nameOrAddress, [])
  else
    let calls := [nameOrAddress] in
    match getNameRecord (suinsClient this) nameOrAddress with
    | Rejects reason => (Throws reason, calls)
    | Fulfils record =>
        match record with
        | Some {| targetAddress := Some address |} =>
            if String.eqb address ""
            then (Throws (failed nameOrAddress), calls)
            else (Returns address, calls)
        | _ => (Throws (failed nameOrAddress), calls)
        end
    end.

(** The calls of the batch are issued in the order of the array; the
    order in which the promises settle is the service's. *)
Definition resolveMany (this : SuiNSResolver) (order : list nat)
    (namesOrAddresses : list string) : Outcome (list string) * list string :=
  let promises := map (resolve this) namesOrAddresses in
  (Promise.all order (map fst promises), concat (map snd promises)).

Definition reverseLookup (this : SuiNSResolver) (_address : string) : option string :=
  None.

End SuiNS.

(** ** Notions used in the statements *)

(** A string that begins neither with white space nor with the channel
    marker (the empty string included). *)
Definition plainStart (s : string) : bool :=
  match s with
  | EmptyString => true
  | String c _ => negb (JS.isWhiteSpace c) && negb (Ascii.eqb c "#")
  end.

(** The two maps are exact inverses, as the registry's data model asks:
    every pair of the name-to-id map is mirrored in the id-to-name map, and
    the maps have as many entries. *)
Definition inverseMaps (this : LocalChannelRegistry) : Prop :=
  (∀ name id, nameToId this !! name = Some id → idToName this !! id = Some name)
  ∧ size (nameToId this) = size (idToName this).

(** The mutating calls a client can make on a registry. *)
Inductive Call : Type :=
| Register (name channelId : string)
| Unregister (name : string)
| Import (data : list (string * string)) (merge : bool)
| Clear.

Definition perform (call : Call) : Local.M unit :=
  match call with
  | Register name channelId => Local.register name channelId
  | Unregister name => Local.unregister name
  | Import data merge => Local.import data merge
  | Clear => Local.clear
  end.

(** The registry after a sequence of calls; a call that throws is caught
    by the client, who carries on. *)
Definition after (calls : list Call) (this : LocalChannelRegistry) : LocalChannelRegistry :=
  fold_left (λ this call, Local.state (perform call) this) calls this.

(** Entries that can be inserted without checks: their normalised names
    are non-empty and pairwise distinct, their ids are non-empty and
    pairwise distinct, and neither is present in the registry yet. *)
Definition freshEntries (this : LocalChannelRegistry) (data : list (string * string)) : Prop :=
  NoDup (map (λ entry, normalizeChannelName entry.1) data)
  ∧ NoDup (map snd data)
  ∧ Forall (λ entry,
        normalizeChannelName entry.1 ≠ "" ∧ entry.2 ≠ ""
        ∧ nameToId this !! normalizeChannelName entry.1 = None
        ∧ idToName this !! entry.2 = None) data.

(** Calls whose arguments are truthy where the code tests for truthiness,
    and whose bulk data is fresh. *)
Definition admissible (this : LocalChannelRegistry) (call : Call) : Prop :=
  match call with
  | Register name channelId => normalizeChannelName name ≠ "" ∧ channelId ≠ ""
  | Unregister _ => True
  | Import data merge => freshEntries (if merge then this else Local.empty) data
  | Clear => True
  end.

Fixpoint admissibleRun (this : LocalChannelRegistry) (calls : list Call) : Prop :=
  match calls with
  | [] => True
  | call :: rest =>
      admissible this call ∧ admissibleRun (Local.state (perform call) this) rest
  end.

#[global] Instance freshEntries_dec this data : Decision (freshEntries this data).
Proof. unfold freshEntries. apply _. Defined.

#[global] Instance admissible_dec this call : Decision (admissible this call).
Proof. destruct call; simpl; apply _. Defined.

#[global] Instance admissibleRun_dec calls : ∀ this, Decision (admissibleRun this calls).
Proof. induction calls as [|call rest IH]; intros this; simpl; apply _. Defined.

(** The invariant that the checked calls maintain: each map is the mirror
    image of the other, and no name and no id is the empty string. *)
Definition mirrored (this : LocalChannelRegistry) : Prop :=
  ∀ name id, nameToId this !! name = Some id ↔ idToName this !! id = Some name.

Definition truthyEntries (this : LocalChannelRegistry) : Prop :=
  ∀ name id, nameToId this !! name = Some id → name ≠ "" ∧ id ≠ "".

Definition wellFormed (this : LocalChannelRegistry) : Prop :=
  mirrored this ∧ truthyEntries this.

(** The store holds, under the registry's storage key, the serialised
    [export()] snapshot of the maps the registry has in memory. *)
Definition mirrorsSnapshot (JSON_stringify : list (string * string) → string)
    (this : PersistentChannelRegistry) : Prop :=
  ∃ store,
    storage this = Some store
    ∧ getItem store (storageKey this)
      = Some (JSON_stringify (Local.export (super this))).

(** The item [#persist()] would write for a registry. *)
Definition snapshotItems (JSON_stringify : list (string * string) → string)
    (this : PersistentChannelRegistry) (store : Storage) : gmap string string :=
  <[storageKey this := JSON_stringify (Local.export (super this))]> (items store).

(** No target to return: the record is absent, or its [targetAddress] is
    missing or the empty string. *)
Definition noTarget (record : option NameRecord) : Prop :=
  record = None
  ∨ ∃ r, record = Some r ∧ (targetAddress r = None ∨ targetAddress r = Some "").

(** A string made of white space only. *)
Fixpoint allWhiteSpace (s : string) : bool :=
  match s with
  | EmptyString => true
  | String c s' => JS.isWhiteSpace c && allWhiteSpace s'
  end.

(** Every name the registry stores, as a key of the name-to-id map or as a
    value of the id-to-name map, is the normal form of some string. *)
Definition normalisedNames (this : LocalChannelRegistry) : Prop :=
  (∀ name id, nameToId this !! name = Some id → ∃ raw, name = normalizeChannelName raw)
  ∧ (∀ id name, idToName this !! id = Some name → ∃ raw, name = normalizeChannelName raw).

(** Every stored name is left as it is by another normalisation (it
    begins neither with [#] nor with white space). *)
Definition stableNames (this : LocalChannelRegistry) : Prop :=
  ∀ name id, nameToId this !! name = Some id → normalizeChannelName name = name.

(** The id that a list of entries gives a normalised name: that of the last
    entry whose name normalises to it. *)
Fixpoint lastId (normalized : string) (data : list (string * string)) : option string :=
  match data with
  | [] => None
  | (name, channelId) :: rest =>
      match lastId normalized rest with
      | Some later => Some later
      | None =>
          if String.eqb (normalizeChannelName name) normalized
          then Some channelId else None
      end
  end.

(** The normalised name that a list of entries gives an id: that of the
    last entry with this id. *)
Fixpoint lastName (channelId : string) (data : list (string * string)) : option string :=
  match data with
  | [] => None
  | (name, id) :: rest =>
      match lastName channelId rest with
      | Some later => Some later
      | None =>
          if String.eqb id channelId
          then Some (normalizeChannelName name) else None
      end
  end.

(** Calls whose names normalise to strings that start plainly, so that
    normalising them again changes nothing. *)
Definition plainCall (call : Call) : Prop :=
  match call with
  | Register name _ => plainStart (normalizeChannelName name) = true
  | Import data _ => Forall (λ entry, plainStart (normalizeChannelName entry.1) = true) data
  | Unregister _ | Clear => True
  end.

(** ** Registries used as examples *)

Module Scenario.

(** [register("general", "")] on a new registry. *)
Definition emptyId : LocalChannelRegistry :=
  Local.state (Local.register "general" "") Local.empty.

(** [register("general", "0xA")] on a new registry. *)
Definition general : LocalChannelRegistry :=
  Local.state (Local.register "general" "0xA") Local.empty.

(** [import({ general: "0xA", main: "0xA" })] on a new registry. *)
Definition twoNames : LocalChannelRegistry :=
  Local.state (Local.import [("general", "0xA"); ("main", "0xA")] true) Local.empty.

(** [register("0xabc", "")] on a new registry: a name that [isChannelName]
    takes for an id. *)
Definition idLikeName : LocalChannelRegistry :=
  Local.state (Local.register "0xabc" "") Local.empty.

(** A stand-in for [JSON.stringify] on flat records: the text it
    produces when no key and no value needs escaping. *)
Definition quote : string := String (ascii_of_nat 34) EmptyString.

Fixpoint members (entries : list (string * string)) : string :=
  match entries with
  | [] => ""
  | (key, value) :: rest =>
      quote +:+ key +:+ quote +:+ ":" +:+ quote +:+ value +:+ quote
      +:+ (match rest with [] => "" | _ => "," +:+ members rest end)
  end.

Definition stringify (entries : list (string * string)) : string :=
  "{" +:+ members entries +:+ "}".

(** A stand-in for [JSON.parse] that recognises the texts of the given
    documents and throws on every other text. *)
Definition parseAmong (documents : list (list (string * string))) (text : string)
  : option (list (string * string)) :=
  List.find (λ document, String.eqb (stringify document) text) documents.

Definition parse : string → option (list (string * string)) :=
  parseAmong [[("general", "0xA")]; [("random", "0xB")]; []].

(** An empty store that accepts every write, and one that refuses all. *)
Definition roomy : Storage := {| items := ∅; fits := λ _, true |}.
Definition full : Storage := {| items := ∅; fits := λ _, false |}.

(** A persistent registry over the empty store, after an [import] that
    nothing has saved. *)
Definition unsaved : PersistentChannelRegistry :=
  snd (Persistent.import [("general", "0xA")] true
         (Persistent.constructor parse "sui-messaging-channels" (Some roomy))).

(** A client that knows one name. *)
Definition client : SuinsClient :=
  {| getNameRecord := λ name,
       if String.eqb name "Alice.sui"
       then Fulfils (Some {| targetAddress := Some "0xa11ce" |})
       else if String.eqb name "down.sui"
       then Rejects (mkError "network unreachable")
       else Fulfils None |}.

Definition resolver : SuiNSResolver := {| suinsClient := client |}.

(** A persistent registry over the accepting store, after
    [register("general", "0xA")]. *)
Definition registered : PersistentChannelRegistry :=
  snd (Persistent.register stringify "general" "0xA"
         (Persistent.constructor parse "sui-messaging-channels" (Some roomy))).

(** A persistent registry where [localStorage] is not defined. *)
Definition offline : PersistentChannelRegistry :=
  Persistent.constructor parse "sui-messaging-channels" None.

(** A store that holds an item of its page under another key. *)
Definition shared : Storage :=
  {| items := {[ "theme" := "dark" ]}; fits := λ _, true |}.

End Scenario.

(* ================================================================== *)
(** * Properties *)
(* ================================================================== *)

(** ** Strings *)

Section Strings.

Import JS.

Lemma toLowerCaseChar_idem c : toLowerCaseChar (toLowerCaseChar c) = toLowerCaseChar c.
Proof. destruct c as [[] [] [] [] [] [] [] []]; reflexivity. Qed.

Lemma isWhiteSpace_toLowerCaseChar c : isWhiteSpace (toLowerCaseChar c) = isWhiteSpace c.
Proof. destruct c as [[] [] [] [] [] [] [] []]; reflexivity. Qed.

Lemma toLowerCaseChar_marker c :
  Ascii.eqb (toLowerCaseChar c) "#" = Ascii.eqb c "#".
Proof. destruct c as [[] [] [] [] [] [] [] []]; reflexivity. Qed.

Lemma toLowerCase_idem s : toLowerCase (toLowerCase s) = toLowerCase s.
Proof.
  induction s as [|c s IH]; simpl; [reflexivity|].
  now rewrite toLowerCaseChar_idem, IH.
Qed.

Lemma toLowerCase_length s : String.length (toLowerCase s) = String.length s.
Proof. induction s as [|c s IH]; simpl; congruence. Qed.

Lemma toLowerCase_trimStart s : toLowerCase (trimStart s) = trimStart (toLowerCase s).
Proof.
  induction s as [|c s IH]; simpl; [reflexivity|].
  rewrite isWhiteSpace_toLowerCaseChar.
  destruct (isWhiteSpace c); [exact IH | reflexivity].
Qed.

Lemma toLowerCase_trimEnd s : toLowerCase (trimEnd s) = trimEnd (toLowerCase s).
Proof.
  induction s as [|c s IH]; simpl; [reflexivity|].
  rewrite <- IH, isWhiteSpace_toLowerCaseChar.
  destruct (trimEnd s) as [|d t]; simpl; [|reflexivity].
  destruct (isWhiteSpace c); reflexivity.
Qed.

Lemma trimEnd_idem s : trimEnd (trimEnd s) = trimEnd s.
Proof.
  induction s as [|c s IH]; simpl; [reflexivity|].
  destruct (trimEnd s) as [|d t] eqn:E.
  - destruct (isWhiteSpace c) eqn:W; simpl; [reflexivity|]. now rewrite W.
  - simpl in *. now rewrite IH.
Qed.

Lemma trimEnd_tail c s : trimEnd (String c s) = String c s → trimEnd s = s.
Proof.
  simpl. destruct (trimEnd s) as [|d t].
  - destruct (isWhiteSpace c); [discriminate|]. now intros [= <-].
  - now intros [= <-].
Qed.

Lemma trimStart_length s : (String.length (trimStart s) ≤ String.length s)%nat.
Proof.
  induction s as [|c s IH]; simpl; [lia|].
  destruct (isWhiteSpace c); simpl; lia.
Qed.

Lemma trimEnd_length s : (String.length (trimEnd s) ≤ String.length s)%nat.
Proof.
  induction s as [|c s IH]; simpl; [lia|].
  destruct (trimEnd s) as [|d t]; simpl in *; [|lia].
  destruct (isWhiteSpace c); simpl; lia.
Qed.

Lemma trim_length s : (String.length (trim s) ≤ String.length s)%nat.
Proof.
  unfold trim. pose proof (trimEnd_length (trimStart s)).
  pose proof (trimStart_length s). lia.
Qed.

Lemma slice1_length s : (String.length (slice1 s) ≤ String.length s)%nat.
Proof. destruct s; simpl; lia. Qed.

(** What [trim] returns has no white space left at its end, and
    lower-casing keeps it so. *)
Lemma trimEnd_toLowerCase_trim s :
  trimEnd (toLowerCase (trim s)) = toLowerCase (trim s).
Proof. unfold trim. now rewrite <- toLowerCase_trimEnd, trimEnd_idem. Qed.

Lemma trimStart_plainStart s : plainStart s = true → trimStart s = s.
Proof.
  destruct s as [|c s]; simpl; [reflexivity|].
  now destruct (isWhiteSpace c).
Qed.

Lemma startsWith_marker c s : startsWith (String c s) "#" = Ascii.eqb c "#".
Proof.
  unfold startsWith. cbn [String.prefix].
  destruct (ascii_dec "#" c) as [E|N].
  - subst c. rewrite Ascii.eqb_refl. now destruct s.
  - symmetry. apply Ascii.eqb_neq. congruence.
Qed.

Lemma startsWith_plainStart s : plainStart s = true → startsWith s "#" = false.
Proof.
  destruct s as [|c s]; [reflexivity|].
  rewrite startsWith_marker. simpl.
  destruct (isWhiteSpace c), (Ascii.eqb c "#"); simpl; congruence.
Qed.

End Strings.

(** ** Normalisation *)

Section Normalisation.

Import JS.

Lemma normalizeChannelName_length s :
  (String.length (normalizeChannelName s) ≤ String.length s)%nat.
Proof.
  unfold normalizeChannelName.
  pose proof (trim_length s) as Ht.
  pose proof (toLowerCase_length (trim s)) as Hl.
  destruct (startsWith _ _); [|lia].
  pose proof (slice1_length (toLowerCase (trim s))). lia.
Qed.

Lemma normalizeChannelName_lower s :
  toLowerCase (normalizeChannelName s) = normalizeChannelName s.
Proof.
  unfold normalizeChannelName.
  destruct (startsWith _ _); [|apply toLowerCase_idem].
  pose proof (toLowerCase_idem (trim s)) as H.
  destruct (toLowerCase (trim s)) as [|c t]; [reflexivity|].
  simpl in *. congruence.
Qed.

Lemma normalizeChannelName_trimEnd s :
  trimEnd (normalizeChannelName s) = normalizeChannelName s.
Proof.
  unfold normalizeChannelName.
  pose proof (trimEnd_toLowerCase_trim s) as H.
  destruct (startsWith _ _); [|exact H].
  destruct (toLowerCase (trim s)) as [|c t]; [reflexivity|].
  simpl slice1. now apply trimEnd_tail in H.
Qed.

(** A normalised name that starts plainly is a fixed point. *)
Lemma normalizeChannelName_fixed s :
  plainStart (normalizeChannelName s) = true →
  normalizeChannelName (normalizeChannelName s) = normalizeChannelName s.
Proof.
  intros Hp. set (y := normalizeChannelName s) in *.
  unfold normalizeChannelName at 1. unfold trim.
  rewrite (trimStart_plainStart _ Hp).
  subst y. rewrite normalizeChannelName_trimEnd, normalizeChannelName_lower.
  now rewrite (startsWith_plainStart _ Hp).
Qed.

Lemma trimEnd_head c s :
  isWhiteSpace c = false →
  ∃ t, trimEnd (String c s) = String c t ∧ (String.length t ≤ String.length s)%nat.
Proof.
  intros W. pose proof (trimEnd_length s) as H. simpl.
  destruct (trimEnd s) as [|d t]; rewrite ?W; eexists; split; try reflexivity;
    simpl in *; lia.
Qed.

(** A string that does not start plainly gets shorter. *)
Lemma normalizeChannelName_shrinks s :
  plainStart s = false →
  (String.length (normalizeChannelName s) < String.length s)%nat.
Proof.
  destruct s as [|c s]; [discriminate|]. simpl. intros Hp.
  destruct (isWhiteSpace c) eqn:W.
  - (* white space in front: trim drops it *)
    assert (normalizeChannelName (String c s) = normalizeChannelName s) as ->.
    { unfold normalizeChannelName, trim. simpl trimStart. now rewrite W. }
    pose proof (normalizeChannelName_length s). lia.
  - (* the marker in front: slice drops it *)
    simpl in Hp. apply negb_false_iff in Hp.
    destruct (trimEnd_head c s W) as (t & Ht & Hlen).
    unfold normalizeChannelName, trim. simpl trimStart. rewrite W, Ht.
    simpl toLowerCase. rewrite startsWith_marker, toLowerCaseChar_marker, Hp.
    simpl. rewrite toLowerCase_length. lia.
Qed.

End Normalisation.

(** C2, as stated, fails: a second [#] survives the first normalisation and
    is stripped by the second. *)
Lemma normalizeChannelName_twice_differs :
  normalizeChannelName "##general" = "#general"
  ∧ normalizeChannelName (normalizeChannelName "##general") = "general"
  ∧ normalizeChannelName (normalizeChannelName "##general")
    ≠ normalizeChannelName "##general".
Proof. repeat split. vm_compute. discriminate. Qed.

(** C2, amended: normalising twice gives the same as normalising once
    exactly when the normalised name begins neither with [#] nor with
    white space, that is when the trimmed input carries at most one leading
    [#] and nothing to strip after it. *)
Theorem normalizeChannelName_idempotent_iff (x : string) :
  normalizeChannelName (normalizeChannelName x) = normalizeChannelName x
  ↔ plainStart (normalizeChannelName x) = true.
Proof.
  split; [|apply normalizeChannelName_fixed].
  intros Heq. destruct (plainStart (normalizeChannelName x)) eqn:Hp; [reflexivity|].
  apply normalizeChannelName_shrinks in Hp. rewrite Heq in Hp. lia.
Qed.

Lemma normalizeChannelName_marked (n : string) :
  JS.trimEnd n = n → JS.toLowerCase n = n → normalizeChannelName ("#" +:+ n) = n.
Proof.
  intros Ht Hl.
  assert (JS.trim ("#" +:+ n) = String "#" n) as Htrim.
  { unfold JS.trim. change ("#" +:+ n) with (String "#" n).
    cbn [JS.trimStart]. change (JS.isWhiteSpace "#") with false. cbv iota.
    cbn [JS.trimEnd]. change (JS.isWhiteSpace "#") with false.
    rewrite Ht. now destruct n. }
  unfold normalizeChannelName. rewrite Htrim.
  cbn [JS.toLowerCase]. change (JS.toLowerCaseChar "#") with "#"%char.
  rewrite Hl, startsWith_marker. reflexivity.
Qed.

(** Formatting does not change what a name normalises to. *)
Lemma normalizeChannelName_format (name : string) :
  normalizeChannelName (formatChannelName name) = normalizeChannelName name.
Proof.
  apply normalizeChannelName_marked.
  - apply normalizeChannelName_trimEnd.
  - apply normalizeChannelName_lower.
Qed.

Lemma formatChannelName_format (name : string) :
  formatChannelName (formatChannelName name) = formatChannelName name.
Proof.
  unfold formatChannelName at 1. rewrite normalizeChannelName_format. reflexivity.
Qed.

Lemma isChannelName_format (name : string) :
  isChannelName (formatChannelName name) = true.
Proof.
  unfold isChannelName, formatChannelName.
  change ("#" +:+ normalizeChannelName name) with (String "#" (normalizeChannelName name)).
  now rewrite startsWith_marker.
Qed.

(** ** The local registry *)

Ltac unfold_local :=
  unfold Local.state, Local.outcome, Local.register, Local.unregister, Local.clear,
    Local.import, Local.setEntry, Local.bind, Local.ret, Local.throw,
    Local.nameToId_get, Local.nameToId_set, Local.nameToId_delete,
    Local.nameToId_clear, Local.idToName_get, Local.idToName_set,
    Local.idToName_delete, Local.idToName_clear in *.

Lemma eqb_nonempty (s : string) : s ≠ "" → String.eqb s "" = false.
Proof. intros H. now apply String.eqb_neq. Qed.

Lemma registry_eta (this : LocalChannelRegistry) :
  {| nameToId := nameToId this; idToName := idToName this |} = this.
Proof. now destruct this. Qed.

(** Whether [register] throws is decided by the conflict test alone. *)
Lemma register_outcome (this : LocalChannelRegistry) (name channelId : string) :
  Local.outcome (Local.register name channelId) this =
    match nameToId this !! normalizeChannelName name with
    | Some existing =>
        if negb (String.eqb existing "") && negb (String.eqb existing channelId)
        then Throws (Local.alreadyRegistered name existing)
        else Returns tt
    | None => Returns tt
    end.
Proof.
  unfold_local.
  destruct (nameToId this !! normalizeChannelName name) as [existing|]; simpl.
  - destruct (negb (String.eqb existing "") && negb (String.eqb existing channelId));
      simpl; [reflexivity|].
    destruct (idToName this !! channelId) as [old|]; simpl; [|reflexivity].
    now destruct (negb (String.eqb old "") && negb (String.eqb old _)).
  - destruct (idToName this !! channelId) as [old|]; simpl; [|reflexivity].
    now destruct (negb (String.eqb old "") && negb (String.eqb old _)).
Qed.

Lemma register_throws (this : LocalChannelRegistry) (name channelId existing : string) :
  nameToId this !! normalizeChannelName name = Some existing →
  existing ≠ "" → existing ≠ channelId →
  Local.register name channelId this
  = (Throws (Local.alreadyRegistered name existing), this).
Proof.
  intros H1 H2 H3. unfold_local. rewrite H1.
  apply String.eqb_neq in H2, H3. now rewrite H2, H3.
Qed.

Lemma register_same (this : LocalChannelRegistry) (name channelId : string) :
  nameToId this !! normalizeChannelName name = Some channelId →
  idToName this !! channelId = Some (normalizeChannelName name) →
  Local.register name channelId this = (Returns tt, this).
Proof.
  intros H1 H2. unfold_local.
  rewrite H1, String.eqb_refl, andb_false_r. cbn.
  rewrite H2, String.eqb_refl, andb_false_r. cbn.
  rewrite !insert_id by done. now rewrite registry_eta.
Qed.

(** C5, as stated, fails: a name bound to the empty id is bound to an id
    different from ["0xB"], yet registering it for ["0xB"] succeeds and
    overwrites the binding. And where an import has given an id two names,
    registering one of them again for that id is no no-op: it removes the
    other. *)
Lemma register_over_empty_id_succeeds :
  nameToId Scenario.emptyId !! normalizeChannelName "general" = Some ""
  ∧ "" ≠ "0xB"
  ∧ Local.outcome (Local.register "general" "0xB") Scenario.emptyId = Returns tt
  ∧ nameToId (Local.state (Local.register "general" "0xB") Scenario.emptyId)
      !! "general" = Some "0xB"
  ∧ nameToId Scenario.twoNames !! normalizeChannelName "general" = Some "0xA"
  ∧ nameToId Scenario.twoNames !! "main" = Some "0xA"
  ∧ nameToId (Local.state (Local.register "general" "0xA") Scenario.twoNames)
      !! "main" = None.
Proof. repeat split. vm_compute. discriminate. Qed.

(** C5, amended: [register(name, channelId)] throws exactly when the
    normalised name is bound to a non-empty id other than [channelId]; the
    error message names that id and both maps are left as they were. When
    the normalised name is bound to [channelId] and the id-to-name map
    holds the mirror entry, the call returns and changes nothing. *)
Theorem register_conflict (this : LocalChannelRegistry) (name channelId : string) :
  (∀ e, Local.outcome (Local.register name channelId) this = Throws e ↔
        ∃ existing,
          nameToId this !! normalizeChannelName name = Some existing
          ∧ existing ≠ "" ∧ existing ≠ channelId
          ∧ e = mkError ("Channel name " +:+ formatChannelName name
                         +:+ " is already registered to " +:+ existing))
  ∧ (∀ e, Local.outcome (Local.register name channelId) this = Throws e →
          Local.state (Local.register name channelId) this = this)
  ∧ (nameToId this !! normalizeChannelName name = Some channelId →
     idToName this !! channelId = Some (normalizeChannelName name) →
     Local.register name channelId this = (Returns tt, this)).
Proof.
  assert (∀ e, Local.outcome (Local.register name channelId) this = Throws e →
               ∃ existing,
                 nameToId this !! normalizeChannelName name = Some existing
                 ∧ existing ≠ "" ∧ existing ≠ channelId
                 ∧ e = Local.alreadyRegistered name existing) as Hthrow.
  { intros e. rewrite register_outcome.
    destruct (nameToId this !! normalizeChannelName name) as [existing|]; [|discriminate].
    destruct (String.eqb existing "") eqn:E1; [discriminate|].
    destruct (String.eqb existing channelId) eqn:E2; [discriminate|].
    simpl. intros [= <-]. exists existing.
    apply String.eqb_neq in E1, E2. auto. }
  split; [|split].
  - intros e. split; [apply Hthrow|].
    intros (existing & H1 & H2 & H3 & ->).
    unfold Local.outcome. now rewrite (register_throws _ _ _ _ H1 H2 H3).
  - intros e He. destruct (Hthrow e He) as (existing & H1 & H2 & H3 & _).
    unfold Local.state. now rewrite (register_throws _ _ _ _ H1 H2 H3).
  - apply register_same.
Qed.

Lemma register_conflict_witness :
  Local.outcome (Local.register "#General" "0xB") Scenario.general
  = Throws (mkError "Channel name #general is already registered to 0xA")
  ∧ Local.state (Local.register "#General" "0xB") Scenario.general = Scenario.general
  ∧ Local.register "GENERAL " "0xA" Scenario.general = (Returns tt, Scenario.general).
Proof.
  pose proof (register_conflict Scenario.general "#General" "0xB") as (Hiff & Hkeep & _).
  pose proof (register_conflict Scenario.general "GENERAL " "0xA") as (_ & _ & Hsame).
  assert (Local.outcome (Local.register "#General" "0xB") Scenario.general
          = Throws (mkError "Channel name #general is already registered to 0xA"))
    as Hthrows.
  { apply Hiff. exists "0xA". repeat split; discriminate. }
  split; [exact Hthrows|]. split; [exact (Hkeep _ Hthrows)|].
  apply Hsame; reflexivity.
Defined.

(** C6, as stated, fails: ["general"] is a channel name whose normalised
    form is bound, to the empty id, and [resolve] throws instead of
    returning the bound id. *)
Lemma resolve_bound_to_empty_id_throws :
  isChannelName "general" = true
  ∧ nameToId Scenario.emptyId !! normalizeChannelName "general" = Some ""
  ∧ Local.resolve Scenario.emptyId "general"
    = Throws (mkError "Channel name not found: #general").
Proof. repeat split. Qed.

(** C6, amended: [resolve] returns its input when [isChannelName] rejects
    it; otherwise it returns the id bound to the normalised input when that
    id is not the empty string, and throws the not-found error, whose text
    ends with the formatted name, when the normalised input is unbound or
    bound to the empty string. *)
Theorem resolve_spec (this : LocalChannelRegistry) (input : string) :
  (isChannelName input = false → Local.resolve this input = Returns input)
  ∧ (isChannelName input = true →
     ∀ id, nameToId this !! normalizeChannelName input = Some id → id ≠ "" →
           Local.resolve this input = Returns id)
  ∧ (isChannelName input = true →
     nameToId this !! normalizeChannelName input = None
     ∨ nameToId this !! normalizeChannelName input = Some "" →
     Local.resolve this input
     = Throws (mkError ("Channel name not found: " +:+ formatChannelName input))).
Proof.
  unfold Local.resolve. split; [|split].
  - now intros ->.
  - intros -> id -> Hid. simpl. now rewrite (eqb_nonempty _ Hid).
  - now intros -> [-> | ->].
Qed.

Lemma resolve_spec_witness :
  Local.resolve Scenario.general "0xfeed" = Returns "0xfeed"
  ∧ Local.resolve Scenario.general "#General" = Returns "0xA"
  ∧ Local.resolve Scenario.general "main"
    = Throws (mkError ("Channel name not found: " +:+ formatChannelName "main")).
Proof.
  split; [|split].
  - apply (proj1 (resolve_spec Scenario.general "0xfeed")). reflexivity.
  - apply (proj1 (proj2 (resolve_spec Scenario.general "#General")));
      [reflexivity | reflexivity | discriminate].
  - apply (proj2 (proj2 (resolve_spec Scenario.general "main")));
      [reflexivity | left; reflexivity].
Defined.

(** What a successful [register] leaves in the two maps when the id had
    another, non-empty name. *)
Lemma register_rename (this : LocalChannelRegistry) (name channelId old : string) :
  idToName this !! channelId = Some old →
  old ≠ "" → old ≠ normalizeChannelName name →
  Local.outcome (Local.register name channelId) this = Returns tt →
  Local.state (Local.register name channelId) this
  = {| nameToId := <[normalizeChannelName name := channelId]> (delete old (nameToId this));
       idToName := <[channelId := normalizeChannelName name]> (idToName this) |}.
Proof.
  intros Hold Hne Hdiff. rewrite register_outcome. unfold_local.
  apply String.eqb_neq in Hne, Hdiff.
  destruct (nameToId this !! normalizeChannelName name) as [existing|]; simpl.
  - destruct (negb (String.eqb existing "") && negb (String.eqb existing channelId));
      [discriminate|]. intros _. simpl. now rewrite Hold, Hne, Hdiff.
  - intros _. now rewrite Hold, Hne, Hdiff.
Qed.

(** C9, as stated, fails: after a rename to a name that normalises to the
    empty string, [reverseLookup] answers that the id has no name; and
    after a rename to [##main], it answers [#main], not the formatted form
    [##main] of the new name. When the old name is the empty one, it is
    not retired. *)
Lemma rename_reverseLookup_differs :
  Local.outcome (Local.register "#" "0xA") Scenario.general = Returns tt
  ∧ formatChannelName "#" = "#"
  ∧ Local.reverseLookup (Local.state (Local.register "#" "0xA") Scenario.general) "0xA"
    = None
  ∧ Local.outcome (Local.register "##main" "0xA") Scenario.general = Returns tt
  ∧ formatChannelName "##main" = "##main"
  ∧ Local.reverseLookup (Local.state (Local.register "##main" "0xA") Scenario.general) "0xA"
    = Some "#main"
  ∧ Local.resolve
      (Local.state (Local.register "main" "0xA")
         (Local.state (Local.register "#" "0xA") Local.empty))
      (formatChannelName "#")
    = Returns "0xA".
Proof. repeat split. Qed.

(** C9, amended: let the id-to-name map give [channelId] the name that [a]
    normalises to, a non-empty name, and let [register(b, channelId)]
    succeed, where [b] normalises to a different name. Then the old binding
    is removed and the new one installed: [resolve] of the formatted form of
    [a] throws the not-found error, the name-to-id map no longer holds the
    old name and binds the new one to the id. And [reverseLookup] of the id
    returns the formatted form of [b] exactly when the normalised [b] is
    non-empty and begins neither with [#] nor with white space. *)
Theorem register_renames (this : LocalChannelRegistry) (a b channelId : string) :
  idToName this !! channelId = Some (normalizeChannelName a) →
  normalizeChannelName a ≠ "" →
  normalizeChannelName b ≠ normalizeChannelName a →
  Local.outcome (Local.register b channelId) this = Returns tt →
  let this' := Local.state (Local.register b channelId) this in
  Local.resolve this' (formatChannelName a)
  = Throws (mkError ("Channel name not found: " +:+ formatChannelName a))
  ∧ nameToId this' !! normalizeChannelName a = None
  ∧ nameToId this' !! normalizeChannelName b = Some channelId
  ∧ (Local.reverseLookup this' channelId = Some (formatChannelName b)
     ↔ normalizeChannelName b ≠ "" ∧ plainStart (normalizeChannelName b) = true).
Proof.
  intros Hold Ha Hdiff Hok this'.
  assert (this' = {| nameToId := <[normalizeChannelName b := channelId]>
                                   (delete (normalizeChannelName a) (nameToId this));
                     idToName := <[channelId := normalizeChannelName b]> (idToName this) |})
    as -> by (apply register_rename; auto).
  assert (<[normalizeChannelName b := channelId]>
            (delete (normalizeChannelName a) (nameToId this)) !! normalizeChannelName a
          = None) as Hgone by now rewrite lookup_insert_ne, lookup_delete_eq.
  split; [|split; [exact Hgone|split; [apply lookup_insert_eq|]]].
  - unfold Local.resolve, Local.notFound.
    rewrite isChannelName_format, normalizeChannelName_format, formatChannelName_format.
    simpl. now rewrite Hgone.
  - unfold Local.reverseLookup. simpl. rewrite lookup_insert_eq.
    unfold formatChannelName.
    change ("#" +:+ normalizeChannelName (normalizeChannelName b))
      with (String "#" (normalizeChannelName (normalizeChannelName b))).
    change ("#" +:+ normalizeChannelName b) with (String "#" (normalizeChannelName b)).
    split.
    + destruct (String.eqb_spec (normalizeChannelName b) "") as [Hb|Hb]; [discriminate|].
      intros [= Hfix]. split; [exact Hb|].
      destruct (plainStart (normalizeChannelName b)) eqn:Hplain; [reflexivity|].
      apply normalizeChannelName_shrinks in Hplain. rewrite Hfix in Hplain. lia.
    + intros [Hb Hplain]. rewrite (eqb_nonempty _ Hb).
      now rewrite (normalizeChannelName_fixed _ Hplain).
Qed.

Lemma register_renames_witness :
  Local.resolve (Local.state (Local.register "##Main" "0xA") Scenario.general) "#general"
  = Throws (mkError "Channel name not found: #general")
  ∧ Local.reverseLookup (Local.state (Local.register "main" "0xA") Scenario.general) "0xA"
    = Some "#main".
Proof.
  split.
  - apply (register_renames Scenario.general "general" "##Main" "0xA");
      first [reflexivity | discriminate].
  - apply (register_renames Scenario.general "general" "main" "0xA");
      first [reflexivity | discriminate | (split; [discriminate | reflexivity])].
Defined.

Lemma unregister_falsy (this : LocalChannelRegistry) (name : string) :
  nameToId this !! normalizeChannelName name = None
  ∨ nameToId this !! normalizeChannelName name = Some "" →
  Local.unregister name this = (Returns tt, this).
Proof. unfold_local. now intros [-> | ->]. Qed.

Lemma unregister_truthy (this : LocalChannelRegistry) (name id : string) :
  nameToId this !! normalizeChannelName name = Some id → id ≠ "" →
  Local.unregister name this
  = (Returns tt, {| nameToId := delete (normalizeChannelName name) (nameToId this);
                    idToName := delete id (idToName this) |}).
Proof. unfold_local. intros -> Hid. now rewrite (eqb_nonempty _ Hid). Qed.

(** [unregister] leaves alone every name that is bound to the empty id. *)
Lemma unregister_keeps_empty_id (this : LocalChannelRegistry) (name other : string) :
  nameToId this !! name = Some "" →
  nameToId (Local.state (Local.unregister other) this) !! name = Some "".
Proof.
  intros Hbound. unfold Local.state.
  destruct (nameToId this !! normalizeChannelName other) as [id|] eqn:Hother.
  - destruct (decide (id = "")) as [->|Hid].
    + rewrite unregister_falsy by auto. exact Hbound.
    + rewrite (unregister_truthy _ _ _ Hother Hid). simpl.
      rewrite lookup_delete_ne; [exact Hbound|].
      intros <-. congruence.
  - rewrite unregister_falsy by auto. exact Hbound.
Qed.

Lemma import_replace (this : LocalChannelRegistry) (data : list (string * string)) :
  Local.import data false this = Local.import data false Local.empty.
Proof. reflexivity. Qed.

(** ** The two maps as inverses of each other *)

(** Maps that mirror each other have as many entries. *)
Lemma mirror_size (m1 m2 : gmap string string) :
  (∀ k v, m1 !! k = Some v ↔ m2 !! v = Some k) → size m1 = size m2.
Proof.
  revert m2. induction m1 as [|k v m1 Hfresh IH] using map_ind; intros m2 Hm.
  - rewrite map_size_empty. symmetry. apply map_size_empty_iff, map_empty.
    intros i. destruct (m2 !! i) as [a|] eqn:E; [|reflexivity].
    apply Hm in E. now rewrite lookup_empty in E.
  - assert (m2 !! v = Some k) as Hv by (apply Hm, lookup_insert_eq).
    rewrite map_size_insert_None by assumption.
    rewrite (IH (delete v m2)).
    + rewrite map_size_delete_Some by eauto.
      assert (size m2 ≠ 0); [|lia].
      apply map_size_non_empty_iff. intros ->. now rewrite lookup_empty in Hv.
    + intros k' v'. rewrite lookup_delete_Some. rewrite <- Hm, lookup_insert_Some.
      split.
      * intros Hk'. assert (k ≠ k') by congruence. split; [|tauto].
        intros <-. assert (m2 !! v = Some k') as Hv' by (apply Hm; rewrite lookup_insert_ne; auto).
        congruence.
      * intros [Hne [[-> Hvv]|[_ Hk']]]; [congruence|assumption].
Qed.

Lemma wellFormed_inverseMaps this : wellFormed this → inverseMaps this.
Proof.
  intros [Hm _]. split.
  - intros name id. apply Hm.
  - apply mirror_size, Hm.
Qed.

Lemma wellFormed_empty : wellFormed Local.empty.
Proof.
  split.
  - intros name id. simpl. now rewrite !lookup_empty.
  - intros name id. simpl. now rewrite lookup_empty.
Qed.

Lemma wellFormed_insert_fresh this n id :
  wellFormed this → n ≠ "" → id ≠ "" →
  nameToId this !! n = None → idToName this !! id = None →
  wellFormed {| nameToId := <[n:=id]> (nameToId this);
                idToName := <[id:=n]> (idToName this) |}.
Proof.
  intros [Hm Ht] Hn Hid Hfn Hfi. split.
  - intros a i. simpl. rewrite !lookup_insert_Some. specialize (Hm a i).
    split; (intros [[-> ->]|[Hne H]]; [now left | right]).
    + split; [|tauto]. intros <-. apply Hm in H. congruence.
    + split; [|tauto]. intros <-. apply Hm in H. congruence.
  - intros a i. simpl. rewrite lookup_insert_Some.
    intros [[<- <-]|[_ H]]; [auto | eauto].
Qed.

Lemma wellFormed_delete this n id :
  wellFormed this → nameToId this !! n = Some id →
  wellFormed {| nameToId := delete n (nameToId this);
                idToName := delete id (idToName this) |}.
Proof.
  intros [Hm Ht] Hb. split.
  - intros a i. simpl. rewrite !lookup_delete_Some.
    split; intros [Hne H]; (split; [|now apply Hm]).
    + intros <-. apply Hm in H. apply Hm in Hb. congruence.
    + intros <-. apply Hm in H. congruence.
  - intros a i. simpl. rewrite lookup_delete_Some. intros [_ H]. eauto.
Qed.

Lemma register_wellFormed this name id :
  wellFormed this → normalizeChannelName name ≠ "" → id ≠ "" →
  wellFormed (Local.state (Local.register name id) this).
Proof.
  intros Hwf Hn Hid. pose proof Hwf as [Hm Ht].
  destruct (nameToId this !! normalizeChannelName name) as [existing|] eqn:Hex.
  - destruct (Ht _ _ Hex) as [_ Hne].
    destruct (decide (existing = id)) as [->|Hdiff].
    + unfold Local.state. rewrite register_same; auto. now apply Hm.
    + unfold Local.state. now rewrite (register_throws _ _ _ _ Hex Hne Hdiff).
  - assert (Local.outcome (Local.register name id) this = Returns tt) as Hok
      by (now rewrite register_outcome, Hex).
    destruct (idToName this !! id) as [old|] eqn:Hold.
    + assert (nameToId this !! old = Some id) as Hback by now apply Hm.
      destruct (Ht _ _ Hback) as [Hold_ne _].
      assert (old ≠ normalizeChannelName name) as Hdiff by congruence.
      rewrite (register_rename _ _ _ _ Hold Hold_ne Hdiff Hok).
      apply (wellFormed_delete _ _ _ Hwf) in Hback.
      apply (wellFormed_insert_fresh _ (normalizeChannelName name) id) in Hback; auto.
      * simpl in Hback. now rewrite insert_delete_eq in Hback.
      * simpl. now rewrite lookup_delete_ne.
      * simpl. apply lookup_delete_eq.
    + unfold_local. rewrite Hex, Hold. simpl.
      now apply wellFormed_insert_fresh.
Qed.

Lemma unregister_wellFormed this name :
  wellFormed this → wellFormed (Local.state (Local.unregister name) this).
Proof.
  intros Hwf. unfold Local.state.
  destruct (nameToId this !! normalizeChannelName name) as [id|] eqn:Hb.
  - destruct (proj2 Hwf _ _ Hb) as [_ Hid].
    rewrite (unregister_truthy _ _ _ Hb Hid). simpl.
    now apply wellFormed_delete.
  - now rewrite unregister_falsy by auto.
Qed.

Lemma forEach_cons (entry : string * string) rest this :
  Local.state (Local.forEach (entry :: rest) Local.setEntry) this
  = Local.state (Local.forEach rest Local.setEntry) (Local.state (Local.setEntry entry) this).
Proof. now destruct entry. Qed.

Lemma setEntry_state name id this :
  Local.state (Local.setEntry (name, id)) this
  = {| nameToId := <[normalizeChannelName name := id]> (nameToId this);
       idToName := <[id := normalizeChannelName name]> (idToName this) |}.
Proof. reflexivity. Qed.

Lemma setEntries_wellFormed data : ∀ this,
  wellFormed this → freshEntries this data →
  wellFormed (Local.state (Local.forEach data Local.setEntry) this).
Proof.
  induction data as [|[name id] rest IH]; intros this Hwf (Hnames & Hids & Hall).
  - exact Hwf.
  - rewrite forEach_cons, setEntry_state. simpl in *.
    apply NoDup_cons in Hnames as [Hname Hnames].
    apply NoDup_cons in Hids as [Hidn Hids].
    apply Forall_cons in Hall as [(Hn & Hi & Hfn & Hfi) Hall].
    apply IH.
    + now apply wellFormed_insert_fresh.
    + split; [assumption|]. split; [assumption|].
      apply Forall_forall. intros [name' id'] Hin.
      rewrite Forall_forall in Hall. destruct (Hall _ Hin) as (? & ? & ? & ?).
      simpl in *. repeat split; auto.
      * rewrite lookup_insert_ne; auto. intros E. apply Hname.
        rewrite E. apply (list_elem_of_fmap_2 (λ entry, normalizeChannelName entry.1) _ (name', id')). exact Hin.
      * rewrite lookup_insert_ne; auto. intros E. apply Hidn.
        rewrite E. apply (list_elem_of_fmap_2 snd _ (name', id')). exact Hin.
Qed.

Lemma import_state data merge this :
  Local.state (Local.import data merge) this
  = Local.state (Local.forEach data Local.setEntry) (if merge then this else Local.empty).
Proof. destruct merge; [|reflexivity]. unfold Local.import, Local.state, Local.bind. simpl.
  now destruct (Local.forEach data Local.setEntry this) as [[] ?]. Qed.

Lemma perform_wellFormed this call :
  wellFormed this → admissible this call →
  wellFormed (Local.state (perform call) this).
Proof.
  intros Hwf Hadm. destruct call as [name id|name|data merge|]; simpl in *.
  - destruct Hadm. now apply register_wellFormed.
  - now apply unregister_wellFormed.
  - rewrite import_state. apply setEntries_wellFormed; [|assumption].
    destruct merge; [assumption | apply wellFormed_empty].
  - apply wellFormed_empty.
Qed.

Lemma after_wellFormed calls : ∀ this,
  wellFormed this → admissibleRun this calls →
  ∀ k, wellFormed (after (take k calls) this).
Proof.
  induction calls as [|call rest IH]; intros this Hwf Hrun k.
  - now rewrite take_nil.
  - destruct k as [|k]; [exact Hwf|]. destruct Hrun as [Hadm Hrest].
    simpl. apply IH; [|assumption]. now apply perform_wellFormed.
Qed.

(** C1, at the failing input: [import({general: "0xA", main: "0xA"})] on
    a new registry, like the constructor given the same mappings, leaves
    both names bound to the id in the name-to-id map and the id bound to
    [main] alone in the id-to-name map: two entries against one, and the
    pair of [general] has no mirror image, so the maps are not inverses of
    each other: [#general] resolves to the id, whose name is [#main].
    [register], which removes the name an id had before it binds the new
    one, leaves one entry in each map for the same two bindings. *)
Lemma import_breaks_inverseMaps :
  after [Import [("general", "0xA"); ("main", "0xA")] true] (Local.constructor None)
  = Scenario.twoNames
  ∧ Local.constructor (Some [("general", "0xA"); ("main", "0xA")]) = Scenario.twoNames
  ∧ nameToId Scenario.twoNames !! "general" = Some "0xA"
  ∧ nameToId Scenario.twoNames !! "main" = Some "0xA"
  ∧ idToName Scenario.twoNames !! "0xA" = Some "main"
  ∧ size (nameToId Scenario.twoNames) = 2
  ∧ size (idToName Scenario.twoNames) = 1
  ∧ Local.resolve Scenario.twoNames "#general" = Returns "0xA"
  ∧ Local.reverseLookup Scenario.twoNames "0xA" = Some "#main"
  ∧ ¬ inverseMaps Scenario.twoNames
  ∧ inverseMaps (after [Register "general" "0xA"; Register "main" "0xA"]
                   (Local.constructor None)).
Proof.
  do 9 (split; [reflexivity|]). split.
  - intros [_ Hsize]. vm_compute in Hsize. discriminate.
  - apply wellFormed_inverseMaps.
    apply (after_wellFormed [Register "general" "0xA"; Register "main" "0xA"]
             (Local.constructor None) wellFormed_empty
             ltac:(apply (bool_decide_unpack _); vm_compute; exact I) 2).
Qed.

(** X25: start from a registry constructed without mappings, or with
    mappings whose normalised names are non-empty and pairwise distinct and
    whose ids are non-empty and pairwise distinct. Then after each call of a
    sequence of [register] calls with a non-empty normalised name and a
    non-empty id, [unregister] calls, [clear] calls and [import] calls whose
    entries are of that same kind and, when merging, name nothing the
    registry already holds, the two maps are exact inverses: every pair of
    the name-to-id map is mirrored in the id-to-name map and the maps have
    the same size. *)
Theorem inverseMaps_preserved
    (initialMappings : option (list (string * string))) (calls : list Call) :
  match initialMappings with
  | Some data => freshEntries Local.empty data
  | None => True
  end →
  admissibleRun (Local.constructor initialMappings) calls →
  ∀ k, inverseMaps (after (take k calls) (Local.constructor initialMappings)).
Proof.
  intros Hinit Hrun k. apply wellFormed_inverseMaps, after_wellFormed; [|assumption].
  destruct initialMappings as [data|]; simpl.
  - apply setEntries_wellFormed; [apply wellFormed_empty | assumption].
  - apply wellFormed_empty.
Qed.

Lemma inverseMaps_preserved_witness :
  inverseMaps (after [Register "General" "0xA"; Register "main" "0xA";
                      Import [("random", "0xB")] true; Unregister "#MAIN"]
                 (Local.constructor (Some [("dev", "0xC")]))).
Proof.
  refine (inverseMaps_preserved (Some [("dev", "0xC")])
           [Register "General" "0xA"; Register "main" "0xA";
            Import [("random", "0xB")] true; Unregister "#MAIN"] _ _ 4).
  - change (freshEntries Local.empty [("dev", "0xC")]).
    apply (bool_decide_unpack _). vm_compute. exact I.
  - apply (bool_decide_unpack _). vm_compute. exact I.
Defined.

(** ** The persistent registry *)

Section Persistence.

Variable JSON_stringify : list (string * string) → string.
Variable JSON_parse : string → option (list (string * string)).

(** [#persist()] never touches the maps or the key. *)
Lemma persist_super this : super (Persistent.persist JSON_stringify this) = super this.
Proof.
  unfold Persistent.persist. destruct (storage this) as [store|]; [|reflexivity].
  now destruct (setItem store _ _).
Qed.

Lemma persist_storageKey this : storageKey (Persistent.persist JSON_stringify this) = storageKey this.
Proof.
  unfold Persistent.persist. destruct (storage this) as [store|]; [|reflexivity].
  now destruct (setItem store _ _).
Qed.

(** A write that fits leaves the snapshot in the store. *)
Lemma persist_accepted this store :
  storage this = Some store →
  fits store (snapshotItems JSON_stringify this store) = true →
  mirrorsSnapshot JSON_stringify (Persistent.persist JSON_stringify this).
Proof.
  intros Hstore Hfits. unfold mirrorsSnapshot, Persistent.persist, setItem.
  rewrite Hstore. unfold snapshotItems in Hfits. rewrite Hfits. simpl.
  eexists. split; [reflexivity|]. unfold getItem. simpl. apply lookup_insert_eq.
Qed.

(** A write that does not fit throws inside [#persist()], which swallows
    the exception. *)
Lemma persist_refused this store :
  storage this = Some store →
  fits store (snapshotItems JSON_stringify this store) = false →
  Persistent.persist JSON_stringify this = this.
Proof.
  intros Hstore Hfits. unfold Persistent.persist, setItem.
  rewrite Hstore. unfold snapshotItems in Hfits. now rewrite Hfits.
Qed.

Lemma inherited_fst {A} (m : Local.M A) this :
  fst (Persistent.inherited m this) = fst (m (super this)).
Proof. unfold Persistent.inherited. now destruct (m (super this)). Qed.

Lemma inherited_snd {A} (m : Local.M A) this :
  snd (Persistent.inherited m this) = Persistent.withSuper this (snd (m (super this))).
Proof. unfold Persistent.inherited. now destruct (m (super this)). Qed.

(** The overriding methods: the inherited method, then [#persist()] when it
    returned. *)
Lemma register_unfold name channelId this :
  Persistent.register JSON_stringify name channelId this
  = match Local.outcome (Local.register name channelId) (super this) with
    | Returns _ =>
        (Returns tt,
         Persistent.persist JSON_stringify (Persistent.withSuper this
                    (Local.state (Local.register name channelId) (super this))))
    | Throws e =>
        (Throws e,
         Persistent.withSuper this
           (Local.state (Local.register name channelId) (super this)))
    end.
Proof.
  unfold Persistent.register, Persistent.inherited, Local.outcome, Local.state.
  now destruct (Local.register name channelId (super this)) as [[[]|e] base].
Qed.

Lemma unregister_returns name this :
  Local.outcome (Local.unregister name) this = Returns tt.
Proof.
  unfold Local.outcome, Local.unregister, Local.bind, Local.nameToId_get. simpl.
  destruct (nameToId this !! normalizeChannelName name) as [id|]; [|reflexivity].
  now destruct (String.eqb id "").
Qed.

Lemma unregister_unfold name this :
  Persistent.unregister JSON_stringify name this
  = (Returns tt,
     Persistent.persist JSON_stringify (Persistent.withSuper this
                (Local.state (Local.unregister name) (super this)))).
Proof.
  pose proof (unregister_returns name (super this)) as Hret.
  unfold Persistent.unregister, Persistent.inherited, Local.outcome, Local.state in *.
  destruct (Local.unregister name (super this)) as [[[]|e] base]; [reflexivity|].
  discriminate.
Qed.

(** C3, amended: on a registry with a store, after every [register] that
    returns and after every [unregister], the store holds under the storage
    key the serialised [export()] snapshot of the maps in memory, provided
    the write is accepted; a refused write is swallowed: the call still
    returns and the store stays as it was. In every case the outcome and
    the maps in memory are those of the inherited method. [import] and
    [clear] change the maps in memory and write nothing; [save()] writes
    the snapshot. *)
Theorem persistent_mutations (this : PersistentChannelRegistry) :
  (∀ name channelId,
      let result := Persistent.register JSON_stringify name channelId this in
      let mutated :=
        Persistent.withSuper this
          (Local.state (Local.register name channelId) (super this)) in
      fst result = Local.outcome (Local.register name channelId) (super this)
      ∧ super (snd result) = super mutated
      ∧ (fst result = Returns tt → ∀ store, storage this = Some store →
         (fits store (snapshotItems JSON_stringify mutated store) = true →
          mirrorsSnapshot JSON_stringify (snd result))
         ∧ (fits store (snapshotItems JSON_stringify mutated store) = false →
            storage (snd result) = storage this)))
  ∧ (∀ name,
      let result := Persistent.unregister JSON_stringify name this in
      let mutated :=
        Persistent.withSuper this (Local.state (Local.unregister name) (super this)) in
      fst result = Returns tt
      ∧ super (snd result) = super mutated
      ∧ ∀ store, storage this = Some store →
         (fits store (snapshotItems JSON_stringify mutated store) = true →
          mirrorsSnapshot JSON_stringify (snd result))
         ∧ (fits store (snapshotItems JSON_stringify mutated store) = false →
            storage (snd result) = storage this))
  ∧ (∀ data merge,
      let result := Persistent.import data merge this in
      fst result = Local.outcome (Local.import data merge) (super this)
      ∧ super (snd result) = Local.state (Local.import data merge) (super this)
      ∧ storage (snd result) = storage this)
  ∧ (let result := Persistent.clear this in
     fst result = Returns tt
     ∧ super (snd result) = Local.empty
     ∧ storage (snd result) = storage this)
  ∧ (∀ store, storage this = Some store →
     fits store (snapshotItems JSON_stringify this store) = true →
     mirrorsSnapshot JSON_stringify (Persistent.save JSON_stringify this)).
Proof.
  split; [|split; [|split; [|split]]].
  - intros name channelId result mutated. subst result.
    rewrite register_unfold. fold mutated.
    destruct (Local.outcome (Local.register name channelId) (super this)) as [[]|e];
      simpl; (split; [reflexivity|]).
    + split; [apply persist_super|]. intros _ store Hstore. split; intros Hfits.
      * now apply (persist_accepted mutated store).
      * now rewrite (persist_refused mutated store).
    + split; [reflexivity|]. discriminate.
  - intros name result mutated. subst result.
    rewrite unregister_unfold. fold mutated. simpl.
    split; [reflexivity|]. split; [apply persist_super|].
    intros store Hstore. split; intros Hfits.
    + now apply (persist_accepted mutated store).
    + now rewrite (persist_refused mutated store).
  - intros data merge result. subst result. unfold Persistent.import.
    rewrite inherited_fst, inherited_snd. auto.
  - unfold Persistent.clear. rewrite inherited_fst, inherited_snd. auto.
  - intros store. apply persist_accepted.
Qed.


(** [reload()], case by case: when the store holds a non-empty text under
    the storage key and the text parses, it leaves in memory exactly the
    parsed snapshot imported with [merge = false], whatever the maps held
    before. When there is no store, no item under the key, an empty item,
    or a text that does not parse, it leaves the registry as it was. *)
Theorem reload_spec (this : PersistentChannelRegistry) :
  (∀ store stored data,
      storage this = Some store →
      getItem store (storageKey this) = Some stored →
      stored ≠ "" →
      JSON_parse stored = Some data →
      super (Persistent.reload JSON_parse this)
      = Local.state (Local.import data false) (super this)
      ∧ super (Persistent.reload JSON_parse this) = Local.constructor (Some data)
      ∧ storage (Persistent.reload JSON_parse this) = storage this)
  ∧ (storage this = None → Persistent.reload JSON_parse this = this)
  ∧ (∀ store,
      storage this = Some store →
      getItem store (storageKey this) = None
      ∨ getItem store (storageKey this) = Some ""
      ∨ (∃ stored, getItem store (storageKey this) = Some stored
                   ∧ JSON_parse stored = None) →
      Persistent.reload JSON_parse this = this).
Proof.
  unfold Persistent.reload. split; [|split].
  - intros store stored data Hstore Hitem Hne Hparse.
    rewrite Hstore. cbv beta iota.
    rewrite Hitem, (eqb_nonempty _ Hne), Hparse.
    unfold Persistent.import. rewrite inherited_snd. repeat split. exact Hstore.
  - now intros ->.
  - intros store Hstore Hitem. rewrite Hstore. cbv beta iota.
    destruct Hitem as [-> | [-> | (stored & -> & ->)]]; try reflexivity.
    now destruct (String.eqb stored "").
Qed.

End Persistence.

(** C3, as stated, fails: after [import] the store has no item under the
    storage key although the registry holds an entry; and after [register]
    then [clear] the store still holds the snapshot with the entry that
    [clear] removed. *)
Lemma import_and_clear_do_not_persist :
  Local.export (super Scenario.unsaved) = [("general", "0xA")]
  ∧ (∃ store, storage Scenario.unsaved = Some store
              ∧ getItem store (storageKey Scenario.unsaved) = None)
  ∧ ¬ mirrorsSnapshot Scenario.stringify Scenario.unsaved
  ∧ ¬ mirrorsSnapshot Scenario.stringify
        (snd (Persistent.clear
                (snd (Persistent.register Scenario.stringify "general" "0xA"
                        (Persistent.constructor Scenario.parse "sui-messaging-channels"
                           (Some Scenario.roomy)))))).
Proof.
  split; [reflexivity|]. split; [eexists; split; reflexivity|].
  split; intros (store & Hstore & Hitem); vm_compute in Hstore;
    injection Hstore as <-; vm_compute in Hitem; discriminate.
Qed.

Lemma persistent_mutations_witness :
  mirrorsSnapshot Scenario.stringify
    (snd (Persistent.register Scenario.stringify "General" "0xA"
            (Persistent.constructor Scenario.parse "sui-messaging-channels"
               (Some Scenario.roomy))))
  ∧ Local.export
      (super (snd (Persistent.register Scenario.stringify "General" "0xA"
                     (Persistent.constructor Scenario.parse "sui-messaging-channels"
                        (Some Scenario.full)))))
    = [("general", "0xA")].
Proof.
  split.
  - refine (proj1 (proj2 (proj2 (proj1
      (persistent_mutations Scenario.stringify
         (Persistent.constructor Scenario.parse "sui-messaging-channels"
            (Some Scenario.roomy)))
      "General" "0xA")) eq_refl Scenario.roomy eq_refl) eq_refl).
  - rewrite (proj1 (proj2 (proj1
      (persistent_mutations Scenario.stringify
         (Persistent.constructor Scenario.parse "sui-messaging-channels"
            (Some Scenario.full)))
      "General" "0xA"))).
    reflexivity.
Defined.

(** C4, at the failing input: over a store with nothing under the storage
    key, after an [import] that nothing has saved, [reload()] changes
    nothing, and the registry still holds the imported entry. The comment
    on [reload] announces that unsaved changes are discarded, and an import
    of no prior data without merging would leave the registry empty. *)
Lemma reload_keeps_unsaved_changes :
  (∃ store, storage Scenario.unsaved = Some store
            ∧ getItem store (storageKey Scenario.unsaved) = None)
  ∧ Persistent.reload Scenario.parse Scenario.unsaved = Scenario.unsaved
  ∧ nameToId (super (Persistent.reload Scenario.parse Scenario.unsaved)) !! "general"
    = Some "0xA"
  ∧ Local.export (super (Persistent.reload Scenario.parse Scenario.unsaved))
    = [("general", "0xA")]
  ∧ Local.export (Local.state (Local.import [] false) (super Scenario.unsaved)) = [].
Proof. split; [eexists; split; reflexivity|]. repeat split. Qed.

Lemma reload_spec_witness :
  super (Persistent.reload Scenario.parse
           (snd (Persistent.import [("random", "0xB")] true
                   (snd (Persistent.register Scenario.stringify "general" "0xA"
                           (Persistent.constructor Scenario.parse "sui-messaging-channels"
                              (Some Scenario.roomy)))))))
  = Local.constructor (Some [("general", "0xA")]).
Proof.
  refine (proj1 (proj2 (proj1 (reload_spec Scenario.parse _)
                          {| items := {[ "sui-messaging-channels"
                                         := Scenario.stringify [("general", "0xA")] ]};
                             fits := λ _, true |}
                          (Scenario.stringify [("general", "0xA")])
                          [("general", "0xA")] _ _ _ _))).
  - vm_compute. reflexivity.
  - reflexivity.
  - discriminate.
  - reflexivity.
Defined.

(** ** [Promise.all] *)

Section PromiseAll.

Context {A : Type}.
Implicit Types (settled : list (Outcome A)) (order : list nat).

Lemma values_fulfilled settled (vs : list A) :
  settled = map Returns vs → Promise.values settled = Returns vs.
Proof.
  intros ->. induction vs as [|v vs IH]; simpl; [reflexivity|]. now rewrite IH.
Qed.

(** Without an order to follow, the rejection reported is the first one in
    the array. *)
Lemma values_rejected settled :
  (∃ e, Throws e ∈ settled) →
  ∃ i e, settled !! i = Some (Throws e)
         ∧ Promise.values settled = Throws e
         ∧ ∀ j, (j < i)%nat → ∃ v, settled !! j = Some (Returns v).
Proof.
  induction settled as [|[v|e] rest IH]; intros (e0 & Hin).
  - now apply not_elem_of_nil in Hin.
  - apply elem_of_cons in Hin as [[=]|Hin].
    destruct IH as (i & e & Hi & Hv & Hbefore); [eauto|].
    exists (S i), e. simpl. rewrite Hv. repeat split; [assumption|].
    intros [|j] Hj; [eauto | apply Hbefore; lia].
  - exists 0%nat, e. repeat split. intros j Hj. lia.
Qed.

Lemma firstRejection_Some order settled e :
  Promise.firstRejection order settled = Some e →
  ∃ i, i ∈ order ∧ settled !! i = Some (Throws e).
Proof.
  induction order as [|i order IH]; simpl; [discriminate|].
  destruct (settled !! i) as [[v|e']|] eqn:Hi.
  - intros H. destruct (IH H) as (k & ? & ?). exists k. split; [now right | assumption].
  - intros [= ->]. exists i. split; [now left | assumption].
  - intros H. destruct (IH H) as (k & ? & ?). exists k. split; [now right | assumption].
Qed.

Lemma firstRejection_fulfilled order (vs : list A) :
  Promise.firstRejection order (map Returns vs) = None.
Proof.
  induction order as [|i order IH]; simpl; [reflexivity|].
  rewrite list_lookup_fmap. now destruct (vs !! i).
Qed.

Lemma all_fulfilled order (vs : list A) :
  Promise.all order (map Returns vs) = Returns vs.
Proof.
  unfold Promise.all. rewrite firstRejection_fulfilled. now apply values_fulfilled.
Qed.

Lemma all_rejected order settled :
  (∃ e, Throws e ∈ settled) →
  ∃ i e, settled !! i = Some (Throws e) ∧ Promise.all order settled = Throws e.
Proof.
  intros Hex. unfold Promise.all.
  destruct (Promise.firstRejection order settled) as [e|] eqn:Hfirst.
  - apply firstRejection_Some in Hfirst as (i & _ & Hi). eauto.
  - destruct (values_rejected settled Hex) as (i & e & Hi & Hv & _). eauto.
Qed.

(** Following the order of the array amounts to reading it left to right. *)
Lemma firstRejection_arrayOrder (done settled : list (Outcome A)) :
  Promise.firstRejection (seq (length done) (length settled)) (done ++ settled)%list
  = match Promise.values settled with
    | Throws e => Some e
    | Returns _ => None
    end.
Proof.
  revert done. induction settled as [|[v|e] rest IH]; intros done; simpl.
  - reflexivity.
  - rewrite list_lookup_middle by reflexivity.
    specialize (IH (done ++ [Returns v])%list).
    rewrite length_app, <- app_assoc in IH. simpl in IH.
    replace (length done + 1)%nat with (S (length done)) in IH by lia.
    rewrite IH. now destruct (Promise.values rest).
  - now rewrite list_lookup_middle by reflexivity.
Qed.

Lemma all_arrayOrder settled :
  Promise.all (Promise.arrayOrder settled) settled = Promise.values settled.
Proof.
  unfold Promise.all, Promise.arrayOrder.
  pose proof (firstRejection_arrayOrder [] settled) as H. simpl in H. rewrite H.
  now destruct (Promise.values settled).
Qed.

End PromiseAll.

Lemma resolveMany_values (this : LocalChannelRegistry) (namesOrIds : list string) :
  Local.resolveMany this namesOrIds = Promise.values (map (Local.resolve this) namesOrIds).
Proof. unfold Local.resolveMany. apply all_arrayOrder. Qed.

Lemma rejected_element {B} (f : string → Outcome B) (inputs : list string) :
  (∃ x e, x ∈ inputs ∧ f x = Throws e) → ∃ e, Throws e ∈ map f inputs.
Proof.
  intros (x & e & Hin & Hx). exists e. rewrite <- Hx.
  now apply (list_elem_of_fmap_2 f).
Qed.

(** C7: for every list of inputs, and for [SuiNSResolver] whatever the order
    in which the lookups settle, [resolveMany] returns the per-element
    results of [resolve] in the order of the inputs when every element
    resolves; and when some element fails, the call throws the error of a
    failing element and returns no list. On [LocalChannelRegistry] the
    error is that of the first failing element. *)
Theorem resolveMany_all_or_nothing
    (registry : LocalChannelRegistry) (resolver : SuiNSResolver)
    (order : list nat) (inputs : list string) :
  (∀ ids, map (Local.resolve registry) inputs = map Returns ids →
          Local.resolveMany registry inputs = Returns ids)
  ∧ ((∃ x e, x ∈ inputs ∧ Local.resolve registry x = Throws e) →
     ∃ i x e, inputs !! i = Some x
              ∧ Local.resolve registry x = Throws e
              ∧ Local.resolveMany registry inputs = Throws e
              ∧ ∀ j y, (j < i)%nat → inputs !! j = Some y →
                       ∃ id, Local.resolve registry y = Returns id)
  ∧ (∀ addresses,
        map (λ x, fst (SuiNS.resolve resolver x)) inputs = map Returns addresses →
        fst (SuiNS.resolveMany resolver order inputs) = Returns addresses)
  ∧ ((∃ x e, x ∈ inputs ∧ fst (SuiNS.resolve resolver x) = Throws e) →
     ∃ i x e, inputs !! i = Some x
              ∧ fst (SuiNS.resolve resolver x) = Throws e
              ∧ fst (SuiNS.resolveMany resolver order inputs) = Throws e).
Proof.
  split; [|split; [|split]].
  - intros ids Hall. rewrite resolveMany_values. now apply values_fulfilled.
  - intros Hex. apply (rejected_element (Local.resolve registry)) in Hex.
    destruct (values_rejected _ Hex) as (i & e & Hi & Hv & Hbefore).
    rewrite list_lookup_fmap in Hi.
    destruct (inputs !! i) as [x|] eqn:Hx; [|discriminate]. injection Hi as Hi.
    exists i, x, e. rewrite resolveMany_values. repeat split; try assumption.
    intros j y Hj Hy. destruct (Hbefore j Hj) as (id & Hid).
    rewrite list_lookup_fmap, Hy in Hid. injection Hid as Hid. eauto.
  - intros addresses Hall. unfold SuiNS.resolveMany. simpl.
    rewrite map_map, Hall. apply all_fulfilled.
  - intros Hex. apply (rejected_element (λ x, fst (SuiNS.resolve resolver x))) in Hex.
    unfold SuiNS.resolveMany. simpl. rewrite map_map.
    destruct (all_rejected order _ Hex) as (i & e & Hi & Hall).
    rewrite list_lookup_fmap in Hi.
    destruct (inputs !! i) as [x|] eqn:Hx; [|discriminate]. injection Hi as Hi.
    exists i, x, e. auto.
Qed.

Lemma resolveMany_all_or_nothing_witness :
  Local.resolveMany Scenario.general ["0xfirst"; "#General"; "0xlast"]
  = Returns ["0xfirst"; "0xA"; "0xlast"]
  ∧ fst (SuiNS.resolveMany Scenario.resolver [2; 1; 0]%nat ["0xfirst"; "Alice.sui"; "0xlast"])
    = Returns ["0xfirst"; "0xa11ce"; "0xlast"].
Proof.
  pose proof (resolveMany_all_or_nothing Scenario.general Scenario.resolver
                [2; 1; 0]%nat ["0xfirst"; "#General"; "0xlast"]) as (Hlocal & _).
  pose proof (resolveMany_all_or_nothing Scenario.general Scenario.resolver
                [2; 1; 0]%nat ["0xfirst"; "Alice.sui"; "0xlast"]) as (_ & _ & Hsuins & _).
  split.
  - apply (Hlocal ["0xfirst"; "0xA"; "0xlast"]). reflexivity.
  - apply (Hsuins ["0xfirst"; "0xa11ce"; "0xlast"]). reflexivity.
Defined.

(** ** The SuiNS resolver *)

(** The calls a batch makes: one per SuiNS name, in the order of the array. *)
Lemma resolveMany_calls (this : SuiNSResolver) (order : list nat) (inputs : list string) :
  snd (SuiNS.resolveMany this order inputs) = List.filter isSuiNSName inputs.
Proof.
  unfold SuiNS.resolveMany. simpl.
  induction inputs as [|x rest IH]; simpl; [reflexivity|].
  rewrite IH. unfold SuiNS.resolve at 1.
  destruct (isSuiNSName x); simpl; [|reflexivity].
  destruct (getNameRecord (suinsClient this) x) as [[[[address|]]|]|reason];
    try reflexivity.
  now destruct (String.eqb address "").
Qed.

(** C8: [resolve] returns an input that [isSuiNSName] rejects as it is,
    without a call to the service. Otherwise it calls [getNameRecord] once,
    with the input exactly as given; when the service answers, [resolve]
    throws the error naming the input exactly when there is no target (the
    record is absent, or its target address is missing or the empty string)
    and returns the record's target address otherwise; a rejection by the
    service is passed on unchanged. *)
Theorem suins_resolve_spec (this : SuiNSResolver) (input : string) :
  (isSuiNSName input = false → SuiNS.resolve this input = (Returns input, []))
  ∧ (isSuiNSName input = true →
     snd (SuiNS.resolve this input) = [input]
     ∧ (∀ record,
           getNameRecord (suinsClient this) input = Fulfils record →
           (fst (SuiNS.resolve this input)
            = Throws (mkError ("Failed to resolve SuiNS name: " +:+ input))
            ↔ noTarget record)
           ∧ (¬ noTarget record →
              ∃ r address,
                record = Some r ∧ targetAddress r = Some address
                ∧ fst (SuiNS.resolve this input) = Returns address))
     ∧ (∀ reason,
           getNameRecord (suinsClient this) input = Rejects reason →
           fst (SuiNS.resolve this input) = Throws reason)).
Proof.
  unfold SuiNS.resolve, SuiNS.failed, noTarget. split.
  - now intros ->.
  - intros ->. simpl. split; [|split].
    + destruct (getNameRecord (suinsClient this) input) as [[[[address|]]|]|reason];
        try reflexivity.
      now destruct (String.eqb address "").
    + intros record ->.
      destruct record as [[[address|]]|]; simpl.
      * destruct (String.eqb address "") eqn:Haddr; simpl.
        -- apply String.eqb_eq in Haddr as ->. split.
           ++ split; [|reflexivity]. intros _. right. eexists. split; [reflexivity|].
              now right.
           ++ intros Hno. exfalso. apply Hno. right. eexists. split; [reflexivity|].
              now right.
        -- apply String.eqb_neq in Haddr. split.
           ++ split; [discriminate|].
              intros [[=] | (r & [= <-] & [[=] | [= ->]])]. now destruct Haddr.
           ++ intros _. eexists _, address. repeat split.
      * split.
        -- split; [|reflexivity]. intros _. right. eexists. split; [reflexivity|].
           now left.
        -- intros Hno. exfalso. apply Hno. right. eexists. split; [reflexivity|].
           now left.
      * split.
        -- split; [|reflexivity]. intros _. now left.
        -- intros Hno. exfalso. apply Hno. now left.
    + now intros reason ->.
Qed.

Lemma suins_resolve_spec_witness :
  SuiNS.resolve Scenario.resolver "0x2" = (Returns "0x2", [])
  ∧ snd (SuiNS.resolve Scenario.resolver "Alice.sui") = ["Alice.sui"]
  ∧ (fst (SuiNS.resolve Scenario.resolver "bob.sui")
     = Throws (mkError ("Failed to resolve SuiNS name: " +:+ "bob.sui"))
     ↔ noTarget None).
Proof.
  split; [|split].
  - apply (proj1 (suins_resolve_spec Scenario.resolver "0x2")). reflexivity.
  - apply (proj2 (suins_resolve_spec Scenario.resolver "Alice.sui")). reflexivity.
  - apply (proj2 (suins_resolve_spec Scenario.resolver "bob.sui") eq_refl).
    reflexivity.
Defined.

(* ================================================================== *)
(** * Further properties of the code *)
(* ================================================================== *)

(** ** Names: classification, normal form, format *)

Lemma append_cons (c : ascii) (s t : string) : String c s +:+ t = String c (s +:+ t).
Proof. reflexivity. Qed.

Lemma append_nil (t : string) : "" +:+ t = t.
Proof. reflexivity. Qed.

Lemma toLowerCase_append (s t : string) :
  JS.toLowerCase (s +:+ t) = JS.toLowerCase s +:+ JS.toLowerCase t.
Proof.
  induction s as [|c s IH]; [reflexivity|].
  rewrite append_cons. simpl. now rewrite IH.
Qed.

Lemma trimStart_white (ws : string) : allWhiteSpace ws = true → JS.trimStart ws = "".
Proof.
  induction ws as [|c ws IH]; simpl; [reflexivity|].
  intros [-> Hws]%andb_true_iff. auto.
Qed.

Lemma trimEnd_white (ws : string) : allWhiteSpace ws = true → JS.trimEnd ws = "".
Proof.
  induction ws as [|c ws IH]; simpl; [reflexivity|].
  intros [-> Hws]%andb_true_iff. now rewrite IH.
Qed.

Lemma trimStart_append_white (ws s : string) :
  allWhiteSpace ws = true → JS.trimStart (ws +:+ s) = JS.trimStart s.
Proof.
  induction ws as [|c ws IH]; [reflexivity|].
  simpl allWhiteSpace. intros [Hc Hws]%andb_true_iff.
  rewrite append_cons. simpl. rewrite Hc. auto.
Qed.

Lemma trimEnd_append_white (s ws : string) :
  allWhiteSpace ws = true → JS.trimEnd (s +:+ ws) = JS.trimEnd s.
Proof.
  intros Hws. induction s as [|c s IH].
  - rewrite append_nil. now apply trimEnd_white.
  - rewrite append_cons. simpl. now rewrite IH.
Qed.

Lemma trim_append_white (s ws : string) :
  allWhiteSpace ws = true → JS.trim (s +:+ ws) = JS.trim s.
Proof.
  intros Hws. unfold JS.trim. induction s as [|c s IH].
  - rewrite append_nil. now rewrite trimStart_white.
  - rewrite append_cons. simpl. destruct (JS.isWhiteSpace c); [exact IH|].
    rewrite <- append_cons. now apply trimEnd_append_white.
Qed.

(** The normal form is computed from the lower-cased input. *)
Lemma normalizeChannelName_toLowerCase (x : string) :
  normalizeChannelName (JS.toLowerCase x) = normalizeChannelName x.
Proof.
  unfold normalizeChannelName, JS.trim.
  now rewrite <- toLowerCase_trimStart, <- toLowerCase_trimEnd, toLowerCase_idem.
Qed.

(** X1: the normal form of a channel name ignores letter case, white space
    around the name, and one [#] in front of a name that starts plainly:
    two inputs with the same lower-casing have the same normal form; white
    space before and after the input does not change it; and [#name] has
    the normal form of [name]. *)
Theorem normalizeChannelName_insensitive :
  (∀ x y, JS.toLowerCase x = JS.toLowerCase y →
          normalizeChannelName x = normalizeChannelName y)
  ∧ (∀ before x after,
        allWhiteSpace before = true → allWhiteSpace after = true →
        normalizeChannelName (before +:+ x +:+ after) = normalizeChannelName x)
  ∧ (∀ x, plainStart x = true →
          normalizeChannelName ("#" +:+ x) = normalizeChannelName x).
Proof.
  split; [|split].
  - intros x y Hxy.
    rewrite <- (normalizeChannelName_toLowerCase x), Hxy.
    apply normalizeChannelName_toLowerCase.
  - intros before x after Hb Ha. unfold normalizeChannelName.
    assert (JS.trim (before +:+ x +:+ after) = JS.trim x) as ->; [|reflexivity].
    unfold JS.trim at 1. rewrite trimStart_append_white by assumption.
    now apply trim_append_white.
  - intros x Hplain.
    rewrite <- (normalizeChannelName_toLowerCase ("#" +:+ x)).
    rewrite <- (normalizeChannelName_toLowerCase x).
    rewrite toLowerCase_append.
    change (JS.toLowerCase "#") with "#".
    assert (plainStart (JS.toLowerCase x) = true) as Hplain'.
    { destruct x as [|c x]; [reflexivity|]. simpl in *.
      now rewrite isWhiteSpace_toLowerCaseChar, toLowerCaseChar_marker. }
    set (l := JS.toLowerCase x) in *.
    unfold normalizeChannelName, JS.trim.
    rewrite (trimStart_plainStart _ Hplain').
    change ("#" +:+ l) with (String "#" l).
    cbn [JS.trimStart]. change (JS.isWhiteSpace "#") with false. cbv iota.
    assert (JS.trimEnd (String "#" l) = String "#" (JS.trimEnd l)) as ->.
    { cbn [JS.trimEnd]. change (JS.isWhiteSpace "#") with false.
      now destruct (JS.trimEnd l). }
    cbn [JS.toLowerCase]. change (JS.toLowerCaseChar "#") with "#"%char.
    rewrite startsWith_marker. simpl.
    assert (plainStart (JS.toLowerCase (JS.trimEnd l)) = true) as Hp.
    { destruct l as [|c l']; [reflexivity|]. simpl in Hplain'.
      apply andb_true_iff in Hplain' as [Hw Hm].
      apply negb_true_iff in Hw.
      destruct (trimEnd_head c l' Hw) as (t & -> & _). simpl.
      now rewrite isWhiteSpace_toLowerCaseChar, toLowerCaseChar_marker, Hw, Hm. }
    now rewrite (startsWith_plainStart _ Hp).
Qed.

(** X2: formatting is stable although normalising is not: formatting a
    formatted name changes nothing, a formatted name is always classified
    as a channel name, and it has the normal form of the name it was
    formatted from. *)
Theorem formatChannelName_stable (name : string) :
  formatChannelName (formatChannelName name) = formatChannelName name
  ∧ isChannelName (formatChannelName name) = true
  ∧ normalizeChannelName (formatChannelName name) = normalizeChannelName name.
Proof.
  split; [|split].
  - apply formatChannelName_format.
  - apply isChannelName_format.
  - apply normalizeChannelName_format.
Qed.

(** X3: a string is classified as a channel name exactly when it is not
    empty and does not begin with [0x]; the test for a leading [#] decides
    nothing more. *)
Theorem isChannelName_iff (input : string) :
  isChannelName input = true ↔ input ≠ "" ∧ JS.startsWith input "0x" = false.
Proof.
  unfold isChannelName. destruct input as [|c s].
  - split; [discriminate | now intros [[] _]].
  - cbn [String.eqb]. rewrite startsWith_marker.
    destruct (Ascii.eqb c "#") eqn:Hc.
    + apply Ascii.eqb_eq in Hc as ->. split; [|reflexivity].
      intros _. split; [discriminate | reflexivity].
    + destruct (JS.startsWith (String c s) "0x").
      * split; [discriminate | now intros [_ ?]].
      * split; [|reflexivity]. intros _. split; [discriminate | reflexivity].
Qed.

Lemma normalizeChannelName_insensitive_witness :
  normalizeChannelName "GENERAL" = normalizeChannelName "general"
  ∧ normalizeChannelName ("  " +:+ "#General" +:+ " ") = normalizeChannelName "#General"
  ∧ normalizeChannelName ("#" +:+ "General") = normalizeChannelName "General".
Proof.
  pose proof normalizeChannelName_insensitive as (Hcase & Hspace & Hmark).
  split; [|split].
  - apply Hcase. reflexivity.
  - apply Hspace; reflexivity.
  - apply Hmark. reflexivity.
Defined.

(** ** The local registry: what the calls do to each other *)

(** What a [register] that returns leaves behind for its own name and id. *)
Lemma register_binds (this : LocalChannelRegistry) (name channelId : string) :
  Local.outcome (Local.register name channelId) this = Returns tt →
  nameToId (Local.state (Local.register name channelId) this)
    !! normalizeChannelName name = Some channelId
  ∧ idToName (Local.state (Local.register name channelId) this)
      !! channelId = Some (normalizeChannelName name).
Proof.
  rewrite register_outcome. unfold_local.
  destruct (nameToId this !! normalizeChannelName name) as [existing|]; simpl.
  - destruct (negb (String.eqb existing "") && negb (String.eqb existing channelId));
      [discriminate|]. intros _. simpl.
    destruct (idToName this !! channelId) as [old|]; simpl;
      [destruct (negb (String.eqb old "") && negb (String.eqb old _))|];
      simpl; split; apply lookup_insert_eq.
  - intros _.
    destruct (idToName this !! channelId) as [old|]; simpl;
      [destruct (negb (String.eqb old "") && negb (String.eqb old _))|];
      simpl; split; apply lookup_insert_eq.
Qed.

(** X4: after a [register(name, channelId)] that returns, with a non-empty
    id, [resolve] of the formatted name returns the id, and so does
    [resolve] of the name as it was given when [isChannelName] accepts it;
    [reverseLookup] of the id returns the stored name, formatted, when that
    name is not empty. *)
Theorem register_then_resolve (this : LocalChannelRegistry) (name channelId : string) :
  Local.outcome (Local.register name channelId) this = Returns tt →
  channelId ≠ "" →
  let this' := Local.state (Local.register name channelId) this in
  Local.resolve this' (formatChannelName name) = Returns channelId
  ∧ (isChannelName name = true → Local.resolve this' name = Returns channelId)
  ∧ (normalizeChannelName name ≠ "" →
     Local.reverseLookup this' channelId
     = Some (formatChannelName (normalizeChannelName name))).
Proof.
  intros Hok Hid this'. destruct (register_binds _ _ _ Hok) as [Hname Hback].
  fold this' in Hname, Hback. split; [|split].
  - unfold Local.resolve.
    rewrite isChannelName_format, normalizeChannelName_format, Hname. simpl.
    now rewrite (eqb_nonempty _ Hid).
  - intros Hclass. unfold Local.resolve. rewrite Hclass, Hname. simpl.
    now rewrite (eqb_nonempty _ Hid).
  - intros Hn. unfold Local.reverseLookup. rewrite Hback.
    now rewrite (eqb_nonempty _ Hn).
Qed.

Lemma register_then_resolve_witness :
  Local.resolve Scenario.general (formatChannelName "general") = Returns "0xA"
  ∧ Local.reverseLookup Scenario.general "0xA" = Some "#general".
Proof.
  pose proof (register_then_resolve Local.empty "general" "0xA" eq_refl
                ltac:(discriminate)) as (Hresolve & _ & Hreverse).
  split; [exact Hresolve|]. apply Hreverse. discriminate.
Defined.

(** After [unregister], the name is unbound or bound to the empty id. *)
Lemma unregister_unbinds (this : LocalChannelRegistry) (name : string) :
  nameToId (Local.state (Local.unregister name) this) !! normalizeChannelName name = None
  ∨ nameToId (Local.state (Local.unregister name) this) !! normalizeChannelName name
    = Some "".
Proof.
  unfold Local.state.
  destruct (nameToId this !! normalizeChannelName name) as [id|] eqn:Hb.
  - destruct (decide (id = "")) as [->|Hid].
    + rewrite unregister_falsy by auto. auto.
    + rewrite (unregister_truthy _ _ _ Hb Hid). simpl. left. apply lookup_delete_eq.
  - rewrite unregister_falsy by auto. auto.
Qed.

(** X5: [unregister] never throws, whatever the registry holds. Afterwards
    [resolve] of the formatted name throws the not-found error, as does
    [resolve] of the name as given when [isChannelName] accepts it; the id
    the name was bound to, if not empty, has no name in [reverseLookup];
    and a second [unregister] of the name changes nothing. *)
Theorem unregister_forgets (this : LocalChannelRegistry) (name : string) :
  let this' := Local.state (Local.unregister name) this in
  Local.outcome (Local.unregister name) this = Returns tt
  ∧ Local.resolve this' (formatChannelName name)
    = Throws (mkError ("Channel name not found: " +:+ formatChannelName name))
  ∧ (isChannelName name = true →
     Local.resolve this' name
     = Throws (mkError ("Channel name not found: " +:+ formatChannelName name)))
  ∧ (∀ id, nameToId this !! normalizeChannelName name = Some id → id ≠ "" →
           Local.reverseLookup this' id = None)
  ∧ Local.unregister name this' = (Returns tt, this').
Proof.
  intros this'. pose proof (unregister_unbinds this name) as Hgone. fold this' in Hgone.
  split; [apply unregister_returns|]. split; [|split; [|split]].
  - unfold Local.resolve, Local.notFound.
    rewrite isChannelName_format, normalizeChannelName_format, formatChannelName_format.
    simpl. now destruct Hgone as [-> | ->].
  - intros Hclass. unfold Local.resolve, Local.notFound. rewrite Hclass. simpl.
    now destruct Hgone as [-> | ->].
  - intros id Hb Hid. subst this'. unfold Local.state, Local.reverseLookup.
    rewrite (unregister_truthy _ _ _ Hb Hid). simpl. now rewrite lookup_delete_eq.
  - apply unregister_falsy. tauto.
Qed.

(** X6: [unregister] undoes a [register] of a name and an id that were both
    unbound: the registry is again what it was before the two calls. *)
Theorem register_unregister_restores
    (this : LocalChannelRegistry) (name channelId : string) :
  nameToId this !! normalizeChannelName name = None →
  idToName this !! channelId = None →
  channelId ≠ "" →
  Local.register name channelId this
  = (Returns tt,
     {| nameToId := <[normalizeChannelName name := channelId]> (nameToId this);
        idToName := <[channelId := normalizeChannelName name]> (idToName this) |})
  ∧ Local.state (Local.unregister name)
      (Local.state (Local.register name channelId) this) = this.
Proof.
  intros Hname Hid Hne.
  assert (Local.register name channelId this
          = (Returns tt,
             {| nameToId := <[normalizeChannelName name := channelId]> (nameToId this);
                idToName := <[channelId := normalizeChannelName name]> (idToName this) |}))
    as Hreg by (unfold_local; now rewrite Hname, Hid).
  split; [exact Hreg|].
  unfold Local.state at 2. rewrite Hreg. unfold Local.state. simpl.
  rewrite (unregister_truthy _ name channelId); [|apply lookup_insert_eq | assumption].
  simpl. rewrite !delete_insert_id by assumption. apply registry_eta.
Qed.

Lemma register_unregister_restores_witness :
  Local.state (Local.unregister "main")
    (Local.state (Local.register "main" "0xB") Scenario.general) = Scenario.general.
Proof.
  apply (register_unregister_restores Scenario.general "main" "0xB");
    first [reflexivity | discriminate].
Defined.

(** X7: how the calls change [size]. A [register] of an unbound name for an
    id without a name adds one; a [register] that moves an id from a stored
    name to an unbound one keeps the size; an [unregister] of a name bound
    to a non-empty id removes one; an [unregister] of any other name keeps
    the size; after [clear] the size is zero. *)
Theorem size_changes (this : LocalChannelRegistry) (name channelId : string) :
  (nameToId this !! normalizeChannelName name = None →
   idToName this !! channelId = None →
   Local.size (Local.state (Local.register name channelId) this) = S (Local.size this))
  ∧ (∀ old, nameToId this !! normalizeChannelName name = None →
            idToName this !! channelId = Some old → old ≠ "" →
            is_Some (nameToId this !! old) →
            Local.size (Local.state (Local.register name channelId) this)
            = Local.size this)
  ∧ (∀ id, nameToId this !! normalizeChannelName name = Some id → id ≠ "" →
           S (Local.size (Local.state (Local.unregister name) this)) = Local.size this)
  ∧ (nameToId this !! normalizeChannelName name = None
     ∨ nameToId this !! normalizeChannelName name = Some "" →
     Local.size (Local.state (Local.unregister name) this) = Local.size this)
  ∧ Local.size (Local.state Local.clear this) = 0.
Proof.
  unfold Local.size. split; [|split; [|split; [|split]]].
  - intros Hname Hid. unfold_local. rewrite Hname, Hid. simpl.
    now apply map_size_insert_None.
  - intros old Hname Hid Hold [id' Hbound].
    assert (old ≠ normalizeChannelName name) as Hdiff by congruence.
    rewrite register_rename with (old := old);
      [|assumption..|now rewrite register_outcome, Hname].
    simpl. rewrite map_size_insert_None by (now rewrite lookup_delete_ne).
    rewrite map_size_delete_Some by eauto.
    assert (size (nameToId this) ≠ 0); [|lia].
    apply map_size_non_empty_iff. intros Hempty.
    now rewrite Hempty, lookup_empty in Hbound.
  - intros id Hb Hid. unfold Local.state.
    rewrite (unregister_truthy _ _ _ Hb Hid). simpl.
    rewrite map_size_delete_Some by eauto.
    assert (size (nameToId this) ≠ 0); [|lia].
    apply map_size_non_empty_iff. intros Hempty.
    now rewrite Hempty, lookup_empty in Hb.
  - intros Hfalsy. unfold Local.state. now rewrite unregister_falsy.
  - apply map_size_empty.
Qed.

Lemma size_changes_witness :
  Local.size (Local.state (Local.register "main" "0xB") Scenario.general) = 2
  ∧ Local.size (Local.state (Local.register "main" "0xA") Scenario.general) = 1
  ∧ S (Local.size (Local.state (Local.unregister "general") Scenario.general)) = 1.
Proof.
  split; [|split].
  - apply (proj1 (size_changes Scenario.general "main" "0xB")); reflexivity.
  - apply (proj1 (proj2 (size_changes Scenario.general "main" "0xA")) "general");
      [reflexivity | reflexivity | discriminate | eexists; reflexivity].
  - apply (proj1 (proj2 (proj2 (size_changes Scenario.general "general" "")))
             "0xA"); [reflexivity | discriminate].
Defined.

(** ** Stored names are normal forms *)

Lemma normalised_lower_trimmed (name : string) :
  (∃ raw, name = normalizeChannelName raw) →
  JS.toLowerCase name = name ∧ JS.trimEnd name = name.
Proof.
  intros (raw & ->). split.
  - apply normalizeChannelName_lower.
  - apply normalizeChannelName_trimEnd.
Qed.

Lemma normalisedNames_insert (this : LocalChannelRegistry) (kept : gmap string string)
    (name id : string) :
  normalisedNames this →
  (∀ k v, kept !! k = Some v → nameToId this !! k = Some v) →
  normalisedNames {| nameToId := <[normalizeChannelName name := id]> kept;
                     idToName := <[id := normalizeChannelName name]> (idToName this) |}.
Proof.
  intros [Hn Hi] Hkept. split; simpl.
  - intros k v [[<- _]|[_ Hk]]%lookup_insert_Some; [eauto|].
    apply Hkept in Hk. eauto.
  - intros k v [[_ <-]|[_ Hk]]%lookup_insert_Some; eauto.
Qed.

Lemma register_normalisedNames (this : LocalChannelRegistry) (name id : string) :
  normalisedNames this → normalisedNames (Local.state (Local.register name id) this).
Proof.
  intros Hnorm. unfold_local.
  destruct (nameToId this !! normalizeChannelName name) as [existing|]; simpl;
    [destruct (negb (String.eqb existing "") && negb (String.eqb existing id));
       simpl; [exact Hnorm|]|];
    (destruct (idToName this !! id) as [old|]; simpl;
     [destruct (negb (String.eqb old "") && negb (String.eqb old _)); simpl|];
     apply normalisedNames_insert; try assumption; simpl;
     first [ now intros k v [_ ?]%lookup_delete_Some | auto ]).
Qed.

Lemma unregister_normalisedNames (this : LocalChannelRegistry) (name : string) :
  normalisedNames this → normalisedNames (Local.state (Local.unregister name) this).
Proof.
  intros [Hn Hi]. unfold_local.
  destruct (nameToId this !! normalizeChannelName name) as [id|]; simpl; [|now split].
  destruct (String.eqb id ""); simpl; [now split|]. split; simpl.
  - intros k v [_ Hk]%lookup_delete_Some. eauto.
  - intros k v [_ Hk]%lookup_delete_Some. eauto.
Qed.

Lemma setEntries_normalisedNames (data : list (string * string)) :
  ∀ this, normalisedNames this →
          normalisedNames (Local.state (Local.forEach data Local.setEntry) this).
Proof.
  induction data as [|[name id] rest IH]; intros this Hnorm; [exact Hnorm|].
  rewrite forEach_cons, setEntry_state. apply IH.
  apply normalisedNames_insert; auto.
Qed.

Lemma empty_normalisedNames : normalisedNames Local.empty.
Proof. split; intros ? ?; simpl; now rewrite lookup_empty. Qed.

Lemma perform_normalisedNames (this : LocalChannelRegistry) (call : Call) :
  normalisedNames this → normalisedNames (Local.state (perform call) this).
Proof.
  intros Hnorm. destruct call as [name id|name|data merge|]; simpl.
  - now apply register_normalisedNames.
  - now apply unregister_normalisedNames.
  - rewrite import_state. apply setEntries_normalisedNames.
    destruct merge; [assumption | apply empty_normalisedNames].
  - apply empty_normalisedNames.
Qed.

(** X8: whatever mappings the registry is constructed with and whatever
    calls follow, with any arguments, every name it stores (each key of the
    name-to-id map and each value of the id-to-name map) is the normal form
    of some string; so it is in lower case and has no white space at its
    end. *)
Theorem stored_names_normalised
    (initialMappings : option (list (string * string))) (calls : list Call) :
  let this := after calls (Local.constructor initialMappings) in
  normalisedNames this
  ∧ (∀ name id, nameToId this !! name = Some id →
                JS.toLowerCase name = name ∧ JS.trimEnd name = name)
  ∧ (∀ id name, idToName this !! id = Some name →
                JS.toLowerCase name = name ∧ JS.trimEnd name = name).
Proof.
  intros this.
  assert (normalisedNames this) as Hnorm.
  { subst this.
    assert (normalisedNames (Local.constructor initialMappings)) as Hstart.
    { destruct initialMappings as [data|]; simpl;
        [apply setEntries_normalisedNames|]; apply empty_normalisedNames. }
    revert Hstart. generalize (Local.constructor initialMappings).
    induction calls as [|call rest IH]; intros start Hstart; [exact Hstart|].
    simpl. apply IH. now apply perform_normalisedNames. }
  split; [exact Hnorm|]. destruct Hnorm as [Hn Hi].
  split; intros ? ? H; apply normalised_lower_trimmed; eauto.
Qed.

(** ** Bulk insertion: the constructor and [import] *)

Lemma lastId_Some (normalized : string) (data : list (string * string)) (id : string) :
  lastId normalized data = Some id →
  ∃ name, (name, id) ∈ data ∧ normalizeChannelName name = normalized.
Proof.
  induction data as [|[name0 id0] rest IH]; simpl; [discriminate|].
  destruct (lastId normalized rest) as [later|].
  - intros [= ->]. destruct (IH eq_refl) as (name & Hin & Hn).
    exists name. split; [now right | assumption].
  - destruct (String.eqb (normalizeChannelName name0) normalized) eqn:E; [|discriminate].
    intros [= ->]. apply String.eqb_eq in E. exists name0. split; [now left | assumption].
Qed.

Lemma lastId_None (normalized : string) (data : list (string * string)) :
  lastId normalized data = None →
  ∀ name id, (name, id) ∈ data → normalizeChannelName name ≠ normalized.
Proof.
  induction data as [|[name0 id0] rest IH]; simpl; intros Hnone name id Hin.
  - now apply not_elem_of_nil in Hin.
  - destruct (lastId normalized rest) as [later|]; [discriminate|].
    destruct (String.eqb (normalizeChannelName name0) normalized) eqn:E; [discriminate|].
    apply String.eqb_neq in E.
    apply elem_of_cons in Hin as [[= -> ->]|Hin]; [assumption | eauto].
Qed.

Lemma lastName_Some (channelId : string) (data : list (string * string)) (stored : string) :
  lastName channelId data = Some stored →
  ∃ name, (name, channelId) ∈ data ∧ stored = normalizeChannelName name.
Proof.
  induction data as [|[name0 id0] rest IH]; simpl; [discriminate|].
  destruct (lastName channelId rest) as [later|].
  - intros [= ->]. destruct (IH eq_refl) as (name & Hin & Hn).
    exists name. split; [now right | assumption].
  - destruct (String.eqb id0 channelId) eqn:E; [|discriminate].
    intros [= <-]. apply String.eqb_eq in E as ->.
    exists name0. split; [now left | reflexivity].
Qed.

Lemma lastName_None (channelId : string) (data : list (string * string)) :
  lastName channelId data = None → ∀ name, (name, channelId) ∉ data.
Proof.
  induction data as [|[name0 id0] rest IH]; simpl; intros Hnone name Hin.
  - now apply not_elem_of_nil in Hin.
  - destruct (lastName channelId rest) as [later|]; [discriminate|].
    destruct (String.eqb id0 channelId) eqn:E; [discriminate|].
    apply String.eqb_neq in E.
    apply elem_of_cons in Hin as [[= -> ->]|Hin]; [congruence | now apply (IH eq_refl name)].
Qed.

(** What the insertion loop leaves in the two maps. *)
Lemma setEntries_lookup (data : list (string * string)) :
  ∀ this,
    (∀ normalized,
        nameToId (Local.state (Local.forEach data Local.setEntry) this) !! normalized
        = match lastId normalized data with
          | Some id => Some id
          | None => nameToId this !! normalized
          end)
    ∧ (∀ channelId,
        idToName (Local.state (Local.forEach data Local.setEntry) this) !! channelId
        = match lastName channelId data with
          | Some name => Some name
          | None => idToName this !! channelId
          end).
Proof.
  induction data as [|[name0 id0] rest IH]; intros this; [now split|].
  rewrite forEach_cons, setEntry_state.
  destruct (IH {| nameToId := <[normalizeChannelName name0 := id0]> (nameToId this);
                  idToName := <[id0 := normalizeChannelName name0]> (idToName this) |})
    as [Hn Hi].
  split.
  - intros normalized. rewrite Hn. simpl.
    destruct (lastId normalized rest); [reflexivity|].
    destruct (String.eqb (normalizeChannelName name0) normalized) eqn:E.
    + apply String.eqb_eq in E as ->. apply lookup_insert_eq.
    + apply String.eqb_neq in E. now apply lookup_insert_ne.
  - intros channelId. rewrite Hi. simpl.
    destruct (lastName channelId rest); [reflexivity|].
    destruct (String.eqb id0 channelId) eqn:E.
    + apply String.eqb_eq in E as ->. apply lookup_insert_eq.
    + apply String.eqb_neq in E. now apply lookup_insert_ne.
Qed.

Lemma import_outcome (data : list (string * string)) (merge : bool)
    (this : LocalChannelRegistry) :
  Local.outcome (Local.import data merge) this = Returns tt.
Proof.
  assert (∀ start, Local.outcome (Local.forEach data Local.setEntry) start = Returns tt)
    as Hloop.
  { induction data as [|[name id] rest IH]; intros start; [reflexivity|].
    unfold Local.outcome in *. simpl. unfold Local.bind. simpl. apply IH. }
  unfold Local.outcome, Local.import, Local.bind in *.
  destruct merge; simpl; apply Hloop.
Qed.

(** X9: [import] never throws, and the last entry wins in both
    directions. Afterwards a normalised name is bound to the id of the last
    entry of the data whose name normalises to it, and an id has the
    normalised name of the last entry that carries it; a name or an id
    that the data does not mention keeps its old binding when merging and
    has none otherwise. Constructing a registry with mappings is importing
    them into a new one. *)
Theorem import_last_wins (this : LocalChannelRegistry)
    (data : list (string * string)) (merge : bool) :
  let this' := Local.state (Local.import data merge) this in
  Local.outcome (Local.import data merge) this = Returns tt
  ∧ (∀ normalized,
        nameToId this' !! normalized
        = match lastId normalized data with
          | Some id => Some id
          | None => if merge then nameToId this !! normalized else None
          end)
  ∧ (∀ channelId,
        idToName this' !! channelId
        = match lastName channelId data with
          | Some name => Some name
          | None => if merge then idToName this !! channelId else None
          end)
  ∧ Local.constructor (Some data) = Local.state (Local.import data merge) Local.empty.
Proof.
  intros this'. split; [apply import_outcome|].
  subst this'. rewrite import_state.
  destruct (setEntries_lookup data (if merge then this else Local.empty)) as [Hn Hi].
  split; [|split].
  - intros normalized. rewrite Hn. destruct (lastId normalized data); [reflexivity|].
    destruct merge; [reflexivity | apply lookup_empty].
  - intros channelId. rewrite Hi. destruct (lastName channelId data); [reflexivity|].
    destruct merge; [reflexivity | apply lookup_empty].
  - rewrite import_state. now destruct merge.
Qed.

(** ** A name bound to the empty id *)

(** C10, as stated, fails. The entry of a name bound to the empty id goes
    away without [clear] or [import]: registering another name for the empty
    id retires it, and once the name has been registered again for a real
    id, [unregister] removes it. And [resolve] does not throw when the name
    looks like an id. *)
Lemma empty_id_entry_removed_by_register :
  nameToId Scenario.emptyId !! "general" = Some ""
  ∧ Local.outcome (Local.register "main" "") Scenario.emptyId = Returns tt
  ∧ nameToId (Local.state (Local.register "main" "") Scenario.emptyId) !! "general" = None
  ∧ Local.size (after [Register "general" "0xB"; Unregister "general"] Scenario.emptyId) = 0
  ∧ nameToId Scenario.idLikeName !! normalizeChannelName "0xabc" = Some ""
  ∧ Local.resolve Scenario.idLikeName "0xabc" = Returns "0xabc".
Proof. repeat split. Qed.

(** C10, amended: when [register(alias, "")] succeeds, the normalised alias
    is bound to the empty id in the name-to-id map; [resolve] of the alias,
    if [isChannelName] accepts it, throws the not-found error; [unregister]
    of the alias changes nothing, so the size stays; no [unregister] at all
    removes the entry; a merging [import] leaves the alias bound, to the
    empty id unless the data names the alias; [clear] removes the entry, and
    a non-merging [import] leaves only what it imports. A later [register]
    can remove the entry too: when the normalised alias is not empty, a
    [register(other, "")] that returns, for a name that normalises
    differently, removes it; and [register(alias, id)] with a non-empty id
    always returns and binds the alias to [id], after which
    [unregister(alias)] removes the entry. *)
Theorem empty_id_entry (this : LocalChannelRegistry) (alias : string) :
  Local.outcome (Local.register alias "") this = Returns tt →
  let this' := Local.state (Local.register alias "") this in
  let normalized := normalizeChannelName alias in
  nameToId this' !! normalized = Some ""
  ∧ (isChannelName alias = true →
     Local.resolve this' alias
     = Throws (mkError ("Channel name not found: " +:+ formatChannelName alias)))
  ∧ Local.unregister alias this' = (Returns tt, this')
  ∧ Local.size (Local.state (Local.unregister alias) this') = Local.size this'
  ∧ (∀ other, nameToId (Local.state (Local.unregister other) this') !! normalized = Some "")
  ∧ (∀ data,
       nameToId (Local.state (Local.import data true) this') !! normalized
       = Some (default "" (lastId normalized data)))
  ∧ nameToId (Local.state Local.clear this') !! normalized = None
  ∧ (∀ data, Local.state (Local.import data false) this'
             = Local.state (Local.import data false) Local.empty)
  ∧ (∀ other,
       normalized ≠ "" →
       normalizeChannelName other ≠ normalized →
       Local.outcome (Local.register other "") this' = Returns tt →
       nameToId (Local.state (Local.register other "") this') !! normalized = None)
  ∧ (∀ channelId,
       channelId ≠ "" →
       let rebound := Local.state (Local.register alias channelId) this' in
       Local.outcome (Local.register alias channelId) this' = Returns tt
       ∧ nameToId rebound !! normalized = Some channelId
       ∧ nameToId (Local.state (Local.unregister alias) rebound) !! normalized = None).
Proof.
  intros Hok this' normalized. subst normalized.
  destruct (register_binds this alias "" Hok) as [Hbound Hname].
  fold this' in Hbound, Hname. clearbody this'.
  assert (Local.unregister alias this' = (Returns tt, this')) as Hun
    by (apply unregister_falsy; auto).
  assert (∀ channelId, Local.outcome (Local.register alias channelId) this' = Returns tt)
    as Hagain.
  { intros channelId. rewrite register_outcome. now rewrite Hbound. }
  split; [exact Hbound|].
  split.
  { intros Hname'. unfold Local.resolve. now rewrite Hname', Hbound. }
  split; [exact Hun|].
  split; [unfold Local.state; now rewrite Hun|].
  split; [intros other; now apply unregister_keeps_empty_id|].
  split.
  { intros data. rewrite import_state.
    rewrite (proj1 (setEntries_lookup data this') (normalizeChannelName alias)).
    destruct (lastId _ data); [reflexivity | exact Hbound]. }
  split; [reflexivity|].
  split; [reflexivity|].
  split.
  { intros other Hne Hother Hreturns.
    rewrite (register_rename this' other "" _ Hname Hne (not_eq_sym Hother) Hreturns).
    simpl. now rewrite lookup_insert_ne, lookup_delete_eq. }
  intros channelId Hid rebound.
  destruct (register_binds this' alias channelId (Hagain channelId)) as [Hrebound _].
  fold rebound in Hrebound.
  split; [apply Hagain|]. split; [exact Hrebound|].
  unfold Local.state.
  rewrite (unregister_truthy rebound alias channelId Hrebound Hid). simpl.
  apply lookup_delete_eq.
Qed.

Lemma empty_id_entry_witness :
  nameToId Scenario.emptyId !! "general" = Some ""
  ∧ Local.resolve Scenario.emptyId "#General"
    = Throws (mkError "Channel name not found: #general")
  ∧ Local.size (Local.state (Local.unregister "#General") Scenario.emptyId) = 1
  ∧ nameToId (Local.state (Local.register "main" "") Scenario.emptyId) !! "general" = None.
Proof.
  pose proof (empty_id_entry Local.empty "#General" eq_refl)
    as (Hbound & Hresolve & _ & Hsize & _ & _ & _ & _ & Hretire & _).
  split; [exact Hbound|]. split; [exact (Hresolve eq_refl)|]. split; [exact Hsize|].
  apply (Hretire "main"); [discriminate | discriminate | reflexivity].
Defined.

(** ** [export], [import] and [list] *)

(** The object that [export()] fills holds every stored name but
    [__proto__], with its id. *)
Lemma export_properties (names : gmap string string) :
  map_fold JS.setProperty ∅ names = delete "__proto__" names.
Proof.
  apply (map_fold_weak_ind (λ result names, result = delete "__proto__" names)).
  - now rewrite delete_empty.
  - intros name id kept result Hfresh ->. unfold JS.setProperty.
    destruct (String.eqb_spec name "__proto__") as [->|Hname].
    + now rewrite delete_insert_eq.
    + now rewrite delete_insert_ne.
Qed.

Lemma export_entry (this : LocalChannelRegistry) (name id : string) :
  (name, id) ∈ Local.export this
  ↔ name ≠ "__proto__" ∧ nameToId this !! name = Some id.
Proof.
  unfold Local.export.
  rewrite export_properties, elem_of_map_to_list, lookup_delete_Some.
  split; intros [Hname Hbound]; split; auto.
Qed.

Lemma export_whole (this : LocalChannelRegistry) :
  nameToId this !! "__proto__" = None →
  Local.export this = map_to_list (nameToId this).
Proof.
  intros Hnone. unfold Local.export. now rewrite export_properties, delete_id.
Qed.

(** [export()] after [register("__proto__", "0xA")] on a new registry: the
    registry holds the name, the exported record has no entry. *)
Lemma export_omits_proto :
  nameToId (Local.state (Local.register "__proto__" "0xA") Local.empty) !! "__proto__"
  = Some "0xA"
  ∧ Local.export (Local.state (Local.register "__proto__" "0xA") Local.empty) = [].
Proof. split; reflexivity. Qed.

Lemma stable_entry (this : LocalChannelRegistry) (entries : list (string * string))
    (name id : string) :
  stableNames this → entries ≡ₚ Local.export this →
  (name, id) ∈ entries →
  nameToId this !! name = Some id ∧ normalizeChannelName name = name.
Proof.
  intros Hstable Hperm Hin. rewrite Hperm in Hin.
  apply export_entry in Hin as [_ Hin]. eauto.
Qed.

(** Importing what was exported, without merging. *)
Lemma import_exported (this other : LocalChannelRegistry)
    (entries : list (string * string)) :
  mirrored this → stableNames this →
  nameToId this !! "__proto__" = None →
  entries ≡ₚ Local.export this →
  Local.state (Local.import entries false) other = this.
Proof.
  intros Hmirror Hstable Hnone Hperm. rewrite import_state.
  destruct (setEntries_lookup entries Local.empty) as [Hn Hi].
  rewrite <- (registry_eta this), <- (registry_eta (Local.state _ _)).
  f_equal; apply map_eq.
  - intros name. rewrite Hn. simpl. rewrite lookup_empty.
    destruct (lastId name entries) as [id|] eqn:Hlast.
    + apply lastId_Some in Hlast as (raw & Hin & Hraw).
      destruct (stable_entry _ _ _ _ Hstable Hperm Hin) as [Hbound Hfix].
      congruence.
    + destruct (nameToId this !! name) as [id|] eqn:Hbound; [|reflexivity].
      exfalso. apply (lastId_None _ _ Hlast name id); [|now apply Hstable in Hbound].
      rewrite Hperm. apply export_entry. split; [congruence | assumption].
  - intros id. rewrite Hi. simpl. rewrite lookup_empty.
    destruct (lastName id entries) as [stored|] eqn:Hlast.
    + apply lastName_Some in Hlast as (raw & Hin & ->).
      destruct (stable_entry _ _ _ _ Hstable Hperm Hin) as [Hbound Hfix].
      rewrite Hfix. symmetry. now apply Hmirror.
    + destruct (idToName this !! id) as [name|] eqn:Hbound; [|reflexivity].
      exfalso. apply (lastName_None _ _ Hlast name).
      apply Hmirror in Hbound.
      rewrite Hperm. apply export_entry. split; [congruence | assumption].
Qed.

(** X10: the entries of [export()], in whatever order they are enumerated,
    are the stored names other than [__proto__], each with its id. For a
    registry whose maps mirror each other, whose stored names are left
    unchanged by normalisation and which holds no name [__proto__], a
    non-merging [import] of the exported entries, into whatever registry,
    gives back the registry that was exported; and [export()] then has one
    entry per stored name. *)
Theorem export_import_roundtrip (this other : LocalChannelRegistry)
    (entries : list (string * string)) :
  entries ≡ₚ Local.export this →
  (∀ name id, (name, id) ∈ entries
              ↔ name ≠ "__proto__" ∧ nameToId this !! name = Some id)
  ∧ (mirrored this → stableNames this →
     nameToId this !! "__proto__" = None →
     Local.state (Local.import entries false) other = this
     ∧ length entries = Local.size this).
Proof.
  intros Hperm. split.
  - intros name id. rewrite Hperm. apply export_entry.
  - intros Hmirror Hstable Hnone. split; [now apply import_exported|].
    rewrite Hperm, (export_whole _ Hnone). apply length_map_to_list.
Qed.

(** The example registry with one plain name satisfies the hypotheses used
    below. *)
Lemma general_wellFormed : wellFormed Scenario.general.
Proof.
  apply register_wellFormed; [apply wellFormed_empty | discriminate..].
Qed.

Lemma general_stableNames : stableNames Scenario.general.
Proof.
  intros name id.
  change (nameToId Scenario.general) with (<["general" := "0xA"]> (∅ : gmap string string)).
  intros [[<- _]|[_ H]]%lookup_insert_Some; [reflexivity|].
  now rewrite lookup_empty in H.
Qed.

Lemma export_import_roundtrip_witness :
  Local.state (Local.import [("general", "0xA")] false) Scenario.twoNames
  = Scenario.general
  ∧ length [("general", "0xA")] = Local.size Scenario.general.
Proof.
  apply (export_import_roundtrip Scenario.general Scenario.twoNames [("general", "0xA")]).
  - reflexivity.
  - apply general_wellFormed.
  - apply general_stableNames.
  - reflexivity.
Defined.

(** X11: in a registry whose maps mirror each other, with no empty name or
    id, and whose stored names are left unchanged by normalisation, the two
    lookups invert each other: the name that [reverseLookup] returns for an
    id resolves to that id, and the id that a channel name resolves to has
    the formatted name as its [reverseLookup]. *)
Theorem lookups_agree (this : LocalChannelRegistry) :
  wellFormed this → stableNames this →
  (∀ id formatted,
      Local.reverseLookup this id = Some formatted →
      Local.resolve this formatted = Returns id)
  ∧ (∀ input id,
      isChannelName input = true →
      Local.resolve this input = Returns id →
      Local.reverseLookup this id = Some (formatChannelName input)).
Proof.
  intros [Hmirror Htruthy] Hstable. split.
  - intros id formatted. unfold Local.reverseLookup.
    destruct (idToName this !! id) as [name|] eqn:Hback; [|discriminate].
    destruct (String.eqb name ""); [discriminate|]. intros [= <-].
    apply Hmirror in Hback. destruct (Htruthy _ _ Hback) as [_ Hid].
    unfold Local.resolve.
    rewrite isChannelName_format, normalizeChannelName_format, (Hstable _ _ Hback), Hback.
    simpl. now rewrite (eqb_nonempty _ Hid).
  - intros input id Hclass. unfold Local.resolve. rewrite Hclass. simpl.
    destruct (nameToId this !! normalizeChannelName input) as [bound|] eqn:Hbound;
      [|discriminate].
    destruct (String.eqb bound "") eqn:Hne; [discriminate|]. intros [= ->].
    destruct (Htruthy _ _ Hbound) as [Hname _].
    unfold Local.reverseLookup. rewrite (proj1 (Hmirror _ _) Hbound).
    rewrite (eqb_nonempty _ Hname). unfold formatChannelName at 1.
    now rewrite (Hstable _ _ Hbound).
Qed.

Lemma lookups_agree_witness :
  Local.resolve Scenario.general "#general" = Returns "0xA"
  ∧ Local.reverseLookup Scenario.general "0xA" = Some (formatChannelName " General").
Proof.
  pose proof (lookups_agree Scenario.general general_wellFormed general_stableNames)
    as [Hforward Hback].
  split.
  - apply Hforward. reflexivity.
  - apply Hback; reflexivity.
Defined.

(** What the loop of [list()] holds under a key: the id of some entry whose
    formatted name is the key, or what the result held before. *)
Lemma listFrom_sound (entries : list (string * string)) :
  ∀ (result : gmap string string) key id,
    fold_left (λ result entry, <[formatChannelName entry.1 := entry.2]> result)
      entries result !! key = Some id →
    (∃ name, (name, id) ∈ entries ∧ key = formatChannelName name)
    ∨ result !! key = Some id.
Proof.
  induction entries as [|[name0 id0] rest IH]; intros result key id; simpl; [auto|].
  intros [(name & Hin & Hkey)|Hhead]%IH.
  - left. exists name. split; [now right | assumption].
  - apply lookup_insert_Some in Hhead as [[<- <-]|[_ Hold]]; [|auto].
    left. exists name0. split; [now left | reflexivity].
Qed.

Lemma listFrom_complete (entries : list (string * string)) :
  ∀ (result : gmap string string),
    NoDup (map (λ entry, formatChannelName entry.1) entries) →
    (∀ name id, (name, id) ∈ entries →
       fold_left (λ result entry, <[formatChannelName entry.1 := entry.2]> result)
         entries result !! formatChannelName name = Some id)
    ∧ (∀ key, key ∉ map (λ entry, formatChannelName entry.1) entries →
       fold_left (λ result entry, <[formatChannelName entry.1 := entry.2]> result)
         entries result !! key = result !! key)
    ∧ ((∀ entry, entry ∈ entries → result !! formatChannelName entry.1 = None) →
       size (fold_left (λ result entry, <[formatChannelName entry.1 := entry.2]> result)
               entries result) = (length entries + size result)%nat).
Proof.
  induction entries as [|[name0 id0] rest IH]; intros result Hnodup; simpl.
  - split; [|split]; [intros ? ? Hin; now apply not_elem_of_nil in Hin | auto..].
  - apply NoDup_cons in Hnodup as [Hfresh Hnodup]. simpl in Hfresh.
    destruct (IH (<[formatChannelName name0 := id0]> result) Hnodup)
      as (Hin & Hout & Hsize).
    split; [|split].
    + intros name id [[= -> ->]|Hrest]%elem_of_cons; [|auto].
      rewrite Hout by assumption. apply lookup_insert_eq.
    + intros key [Hne Hkey]%not_elem_of_cons.
      rewrite Hout by assumption. now apply lookup_insert_ne.
    + intros Hnew. rewrite Hsize.
      * rewrite map_size_insert_None; [lia|].
        apply (Hnew (name0, id0)). now left.
      * intros entry Hentry. rewrite lookup_insert_ne.
        -- apply Hnew. now right.
        -- intros E. apply Hfresh. rewrite E.
           now apply (list_elem_of_fmap_2 (λ entry, formatChannelName entry.1)).
Qed.

(** Stored names that normalisation leaves unchanged have distinct
    formatted forms. *)
Lemma formatted_NoDup (this : LocalChannelRegistry) (entries : list (string * string)) :
  stableNames this → entries ≡ₚ map_to_list (nameToId this) →
  NoDup (map (λ entry, formatChannelName entry.1) entries).
Proof.
  intros Hstable Hperm.
  assert (NoDup entries.*1) as Hnames
    by (rewrite Hperm; apply NoDup_fst_map_to_list).
  assert (∀ entry, entry ∈ entries → normalizeChannelName entry.1 = entry.1) as Hfix.
  { intros [name id] Hin. rewrite Hperm in Hin.
    apply elem_of_map_to_list in Hin. simpl. eauto. }
  clear Hperm. induction entries as [|[name0 id0] rest IH]; [constructor|].
  simpl in *. apply NoDup_cons in Hnames as [Hfresh Hnames].
  apply NoDup_cons. split.
  - intros ([name id] & Heq & Hin)%list_elem_of_fmap. simpl in Heq.
    pose proof (Hfix (name0, id0) ltac:(now left)) as Hfix0.
    pose proof (Hfix (name, id) ltac:(now right)) as Hfix1.
    simpl in Hfix0, Hfix1. unfold formatChannelName in Heq.
    rewrite Hfix0, Hfix1, !append_cons, !append_nil in Heq. injection Heq as ->.
    apply Hfresh. now apply (list_elem_of_fmap_2 fst _ (name, id)).
  - apply IH; [assumption|]. intros entry Hin. apply Hfix. now right.
Qed.

(** X12: [list()] holds only formatted names of stored names, each with the
    id of such a name, whatever the order in which the map enumerates its
    entries. When every stored name is left unchanged by normalisation,
    [list()] has exactly one entry per stored name: the formatted name,
    with the name's id. *)
Theorem list_entries (this : LocalChannelRegistry) (entries : list (string * string)) :
  entries ≡ₚ map_to_list (nameToId this) →
  (∀ key id, Local.listFrom entries !! key = Some id →
             ∃ name, key = formatChannelName name ∧ nameToId this !! name = Some id)
  ∧ (stableNames this →
     (∀ name id, nameToId this !! name = Some id →
                 Local.listFrom entries !! formatChannelName name = Some id)
     ∧ size (Local.listFrom entries) = Local.size this).
Proof.
  intros Hperm. unfold Local.listFrom. split.
  - intros key id [(name & Hin & ->)|Hempty]%listFrom_sound.
    + exists name. split; [reflexivity|].
      rewrite Hperm in Hin. now apply elem_of_map_to_list.
    + now rewrite lookup_empty in Hempty.
  - intros Hstable.
    destruct (listFrom_complete entries ∅ (formatted_NoDup _ _ Hstable Hperm))
      as (Hin & _ & Hsize).
    split.
    + intros name id Hbound. apply Hin. rewrite Hperm. now apply elem_of_map_to_list.
    + rewrite Hsize by (intros; apply lookup_empty).
      rewrite map_size_empty, Hperm, length_map_to_list. unfold Local.size. lia.
Qed.

Lemma list_entries_witness :
  Local.listFrom [("general", "0xA")] !! formatChannelName "general" = Some "0xA"
  ∧ size (Local.listFrom [("general", "0xA")]) = Local.size Scenario.general.
Proof.
  destruct (proj2 (list_entries Scenario.general [("general", "0xA")] (reflexivity _))
              general_stableNames) as [Hlisted Hsize].
  split; [|exact Hsize]. apply Hlisted. reflexivity.
Defined.

(** ** The persistent registry: store and memory *)

Section Store.

Variable JSON_stringify : list (string * string) → string.
Variable JSON_parse : string → option (list (string * string)).

Lemma withSuper_super (this : PersistentChannelRegistry) :
  Persistent.withSuper this (super this) = this.
Proof. now destruct this. Qed.

(** [#persist()] writes under the storage key and nowhere else. *)
Lemma persist_frame (this : PersistentChannelRegistry) (store store' : Storage)
    (other : string) :
  storage this = Some store →
  storage (Persistent.persist JSON_stringify this) = Some store' →
  other ≠ storageKey this →
  getItem store' other = getItem store other.
Proof.
  intros Hstore Hafter Hother. unfold Persistent.persist, setItem in Hafter.
  rewrite Hstore in Hafter.
  destruct (fits store _); simpl in Hafter.
  - injection Hafter as <-. unfold getItem. simpl. now apply lookup_insert_ne.
  - rewrite Hstore in Hafter. now injection Hafter as <-.
Qed.

(** What [reload()] and the constructor read from a store that holds a
    saved snapshot under the key. *)
Lemma reload_saved (this : PersistentChannelRegistry) (store : Storage)
    (data : list (string * string)) (text : string) :
  storage this = Some store →
  getItem store (storageKey this) = Some text →
  text ≠ "" → JSON_parse text = Some data →
  super (Persistent.reload JSON_parse this)
  = Local.state (Local.import data false) (super this).
Proof.
  intros Hstore Hitem Hne Hparse. unfold Persistent.reload.
  rewrite Hstore. cbv beta iota. rewrite Hitem, (eqb_nonempty _ Hne), Hparse.
  unfold Persistent.import. now rewrite inherited_snd.
Qed.

(** X13: after a [save()] that the store accepts, the snapshot can be read
    back: if the stored text is not empty and [JSON.parse] returns from it
    the exported entries (in any order), then, for a registry whose maps
    mirror each other, whose stored names are left unchanged by
    normalisation and which holds no name [__proto__], [reload()] restores
    the saved maps, also after an [import] or a [clear] that was not saved,
    and a new registry constructed over the same store and key starts with
    the saved maps. *)
Theorem save_then_reload (this : PersistentChannelRegistry) (store : Storage)
    (data : list (string * string)) :
  storage this = Some store →
  fits store (snapshotItems JSON_stringify this store) = true →
  JSON_stringify (Local.export (super this)) ≠ "" →
  JSON_parse (JSON_stringify (Local.export (super this))) = Some data →
  data ≡ₚ Local.export (super this) →
  mirrored (super this) → stableNames (super this) →
  nameToId (super this) !! "__proto__" = None →
  let saved := Persistent.save JSON_stringify this in
  super (Persistent.reload JSON_parse saved) = super this
  ∧ (∀ unsaved merge,
        super (Persistent.reload JSON_parse (snd (Persistent.import unsaved merge saved)))
        = super this)
  ∧ super (Persistent.reload JSON_parse (snd (Persistent.clear saved))) = super this
  ∧ super (Persistent.constructor JSON_parse (storageKey this) (storage saved))
    = super this.
Proof.
  intros Hstore Hfits Htext Hparse Hperm Hmirror Hstable Hnone saved.
  assert (∃ store', storage saved = Some store'
                    ∧ getItem store' (storageKey this)
                      = Some (JSON_stringify (Local.export (super this))))
    as (store' & Hsaved & Hitem).
  { subst saved. unfold Persistent.save, Persistent.persist, setItem.
    rewrite Hstore. unfold snapshotItems in Hfits. rewrite Hfits. simpl.
    eexists. split; [reflexivity|]. apply lookup_insert_eq. }
  assert (storageKey saved = storageKey this) as Hkey by apply persist_storageKey.
  assert (∀ memory,
             storage memory = storage saved → storageKey memory = storageKey this →
             super (Persistent.reload JSON_parse memory) = super this) as Hreload.
  { intros memory Hsame Hsamekey.
    rewrite (reload_saved memory store' data
               (JSON_stringify (Local.export (super this)))); try assumption.
    - now apply import_exported.
    - now rewrite Hsame.
    - now rewrite Hsamekey. }
  split; [|split; [|split]].
  - now apply Hreload.
  - intros unsaved merge. apply Hreload;
      unfold Persistent.import; now rewrite inherited_snd.
  - apply Hreload; unfold Persistent.clear; now rewrite inherited_snd.
  - unfold Persistent.constructor. cbn [super]. rewrite Hsaved. cbv beta iota.
    rewrite Hitem, (eqb_nonempty _ Htext), Hparse.
    transitivity (Local.state (Local.import data false) Local.empty);
      [now rewrite import_state | now apply import_exported].
Qed.

(** X14: without a store the persistent registry is the local one:
    [register] and [unregister] return or throw what the inherited methods
    do and leave their maps, and [save()] and [reload()] change nothing. *)
Theorem without_store (this : PersistentChannelRegistry) :
  storage this = None →
  (∀ name channelId,
      Persistent.register JSON_stringify name channelId this
      = (Local.outcome (Local.register name channelId) (super this),
         Persistent.withSuper this
           (Local.state (Local.register name channelId) (super this))))
  ∧ (∀ name,
      Persistent.unregister JSON_stringify name this
      = (Local.outcome (Local.unregister name) (super this),
         Persistent.withSuper this (Local.state (Local.unregister name) (super this))))
  ∧ Persistent.save JSON_stringify this = this
  ∧ Persistent.reload JSON_parse this = this.
Proof.
  intros Hnone.
  assert (∀ base, Persistent.persist JSON_stringify (Persistent.withSuper this base)
                  = Persistent.withSuper this base) as Hpersist.
  { intros base. unfold Persistent.persist. simpl. now rewrite Hnone. }
  split; [|split; [|split]].
  - intros name channelId. rewrite register_unfold.
    destruct (Local.outcome (Local.register name channelId) (super this)) as [[]|e];
      [now rewrite Hpersist | reflexivity].
  - intros name. rewrite unregister_unfold, unregister_returns. now rewrite Hpersist.
  - unfold Persistent.save, Persistent.persist. now rewrite Hnone.
  - unfold Persistent.reload. now rewrite Hnone.
Qed.

(** X15: a [register] that is rejected leaves everything as it was: the
    maps in memory and the store. *)
Theorem rejected_register_writes_nothing
    (this : PersistentChannelRegistry) (name channelId : string) (e : Error) :
  fst (Persistent.register JSON_stringify name channelId this) = Throws e →
  Persistent.register JSON_stringify name channelId this = (Throws e, this).
Proof.
  rewrite register_unfold.
  destruct (Local.outcome (Local.register name channelId) (super this)) as [[]|e']
    eqn:Hout; simpl; [discriminate|].
  intros [= ->]. f_equal.
  rewrite register_outcome in Hout.
  destruct (nameToId (super this) !! normalizeChannelName name) as [existing|] eqn:Hb;
    [|discriminate].
  destruct (String.eqb existing "") eqn:E1; [discriminate|].
  destruct (String.eqb existing channelId) eqn:E2; [discriminate|].
  apply String.eqb_neq in E1, E2. unfold Local.state.
  rewrite (register_throws _ _ _ _ Hb E1 E2). apply withSuper_super.
Qed.

(** X16: the persistent registry writes under its own storage key only:
    whatever [register], [unregister] and [save()] do to the store, every
    item under another key stays as it was. *)
Theorem writes_own_key_only (this : PersistentChannelRegistry) (store : Storage)
    (other : string) :
  storage this = Some store →
  other ≠ storageKey this →
  (∀ name channelId store',
      storage (snd (Persistent.register JSON_stringify name channelId this)) = Some store' →
      getItem store' other = getItem store other)
  ∧ (∀ name store',
      storage (snd (Persistent.unregister JSON_stringify name this)) = Some store' →
      getItem store' other = getItem store other)
  ∧ (∀ store',
      storage (Persistent.save JSON_stringify this) = Some store' →
      getItem store' other = getItem store other).
Proof.
  intros Hstore Hother. split; [|split].
  - intros name channelId store'. rewrite register_unfold.
    destruct (Local.outcome (Local.register name channelId) (super this)) as [[]|e]; simpl.
    + intros Hafter. now apply (persist_frame _ store store' other) in Hafter.
    + rewrite Hstore. now intros [= <-].
  - intros name store'. rewrite unregister_unfold. simpl.
    intros Hafter. now apply (persist_frame _ store store' other) in Hafter.
  - intros store' Hafter. now apply (persist_frame _ store store' other) in Hafter.
Qed.

(** X17: the constructor never fails and never writes. It keeps the key
    and the store it is given, and it starts with no mappings when there is
    no store, no item under the key, an empty item, or a text that does not
    parse. *)
Theorem constructor_starts_empty (key : string) (localStorage : option Storage) :
  storageKey (Persistent.constructor JSON_parse key localStorage) = key
  ∧ storage (Persistent.constructor JSON_parse key localStorage) = localStorage
  ∧ (localStorage = None
     ∨ (∃ store, localStorage = Some store
                 ∧ (getItem store key = None
                    ∨ getItem store key = Some ""
                    ∨ ∃ stored, getItem store key = Some stored
                                ∧ JSON_parse stored = None)) →
     super (Persistent.constructor JSON_parse key localStorage) = Local.empty).
Proof.
  split; [reflexivity|]. split; [reflexivity|].
  unfold Persistent.constructor. simpl.
  intros [-> | (store & -> & [-> | [-> | (stored & -> & ->)]])]; try reflexivity.
  now destruct (String.eqb stored "").
Qed.

End Store.

(** ** SuiNS names and batches *)

Lemma length_append_string (a b : string) :
  String.length (a +:+ b) = (String.length a + String.length b)%nat.
Proof. induction a as [|c a IH]; [reflexivity|]. rewrite append_cons. simpl. now rewrite IH. Qed.

Lemma substring_whole (b : string) : String.substring 0 (String.length b) b = b.
Proof. induction b as [|c b IH]; simpl; [reflexivity | now rewrite IH]. Qed.

Lemma substring_append (a b : string) :
  String.substring (String.length a) (String.length b) (a +:+ b) = b.
Proof.
  induction a as [|c a IH]; [apply substring_whole|].
  rewrite append_cons. exact IH.
Qed.

Lemma endsWith_append (a b : string) : JS.endsWith (a +:+ b) b = true.
Proof.
  unfold JS.endsWith. rewrite length_append_string.
  replace (String.length a + String.length b - String.length b)%nat
    with (String.length a) by lia.
  rewrite substring_append, String.eqb_refl.
  apply andb_true_iff. split; [|reflexivity]. apply Nat.leb_le. lia.
Qed.

Lemma toLowerCase_substring (s : string) :
  ∀ i k, JS.toLowerCase (String.substring i k s) = String.substring i k (JS.toLowerCase s).
Proof.
  induction s as [|c s IH]; intros [|i] [|k]; simpl; try reflexivity.
  - now rewrite IH.
  - apply IH.
  - apply IH.
Qed.

Lemma substring_split (s : string) :
  ∀ k, (k ≤ String.length s)%nat →
       s = String.substring 0 k s +:+ String.substring k (String.length s - k) s.
Proof.
  induction s as [|c s IH]; intros [|k] Hk; simpl in *.
  - reflexivity.
  - lia.
  - rewrite append_nil. now rewrite substring_whole.
  - rewrite append_cons. f_equal. apply IH. lia.
Qed.

(** X18: a string is a SuiNS name exactly when it ends with [.sui] written
    in any mix of upper and lower case; whatever comes before, dots
    included, does not matter, and nothing shorter than four characters is
    a SuiNS name. *)
Theorem isSuiNSName_iff (input : string) :
  (isSuiNSName input = true ↔
   ∃ before ending, input = before +:+ ending ∧ JS.toLowerCase ending = ".sui")
  ∧ (isSuiNSName input = true → (4 ≤ String.length input)%nat).
Proof.
  assert (isSuiNSName input = true → (4 ≤ String.length input)%nat) as Hlen.
  { unfold isSuiNSName, JS.endsWith. rewrite toLowerCase_length.
    intros [Hle _]%andb_true_iff. now apply Nat.leb_le in Hle. }
  split; [|exact Hlen]. split.
  - intros Hname. specialize (Hlen Hname).
    exists (String.substring 0 (String.length input - 4) input),
           (String.substring (String.length input - 4) 4 input).
    split.
    + pose proof (substring_split input (String.length input - 4) ltac:(lia)) as Hsplit.
      replace (String.length input - (String.length input - 4))%nat with 4%nat
        in Hsplit by lia.
      exact Hsplit.
    + unfold isSuiNSName, JS.endsWith in Hname. rewrite toLowerCase_length in Hname.
      apply andb_true_iff in Hname as [_ Heq]. apply String.eqb_eq in Heq.
      rewrite toLowerCase_substring. exact Heq.
  - intros (before & ending & -> & Hending). unfold isSuiNSName.
    rewrite toLowerCase_append, Hending. apply endsWith_append.
Qed.

(** X19: the calls that a batch makes to the naming service are exactly the
    SuiNS names among its inputs, each once and in the order of the inputs,
    whether the batch returns or throws and whatever the order in which the
    lookups settle; a single [resolve] calls once for a SuiNS name and not
    at all for anything else. *)
Theorem batch_calls (this : SuiNSResolver) (order : list nat) (inputs : list string) :
  snd (SuiNS.resolveMany this order inputs) = List.filter isSuiNSName inputs
  ∧ (∀ input, snd (SuiNS.resolve this input)
              = if isSuiNSName input then [input] else []).
Proof.
  split; [apply resolveMany_calls|].
  intros input. unfold SuiNS.resolve.
  destruct (isSuiNSName input); simpl; [|reflexivity].
  destruct (getNameRecord (suinsClient this) input) as [[[[address|]]|]|reason];
    try reflexivity.
  now destruct (String.eqb address "").
Qed.

(** X20: a batch of inputs that are not names comes back as it is: on
    [SuiNSResolver], when no input is a SuiNS name, without any call to the
    service; on [LocalChannelRegistry], when no input is a channel name,
    whatever the registry holds. *)
Theorem batch_of_identifiers (registry : LocalChannelRegistry) (resolver : SuiNSResolver)
    (order : list nat) (inputs : list string) :
  ((∀ input, input ∈ inputs → isSuiNSName input = false) →
   SuiNS.resolveMany resolver order inputs = (Returns inputs, []))
  ∧ ((∀ input, input ∈ inputs → isChannelName input = false) →
     Local.resolveMany registry inputs = Returns inputs).
Proof.
  split.
  - intros Hnone.
    assert (map (SuiNS.resolve resolver) inputs = map (λ x, (Returns x, [])) inputs) as Hall.
    { apply map_ext_in. intros x Hx%list_elem_of_In.
      unfold SuiNS.resolve. now rewrite (Hnone x Hx). }
    unfold SuiNS.resolveMany. rewrite Hall, !map_map. simpl. f_equal.
    + apply all_fulfilled.
    + clear. induction inputs as [|x rest IH]; simpl; [reflexivity | exact IH].
  - intros Hnone. rewrite resolveMany_values. apply values_fulfilled.
    apply map_ext_in. intros x Hx%list_elem_of_In.
    unfold Local.resolve. now rewrite (Hnone x Hx).
Qed.

Lemma batch_of_identifiers_witness :
  SuiNS.resolveMany Scenario.resolver [1; 0]%nat ["0x1"; "0x2"] = (Returns ["0x1"; "0x2"], [])
  ∧ Local.resolveMany Scenario.general ["0x1"; "0x2"] = Returns ["0x1"; "0x2"].
Proof.
  pose proof (batch_of_identifiers Scenario.general Scenario.resolver [1; 0]%nat
                ["0x1"; "0x2"]) as [Hsuins Hlocal].
  split.
  - apply Hsuins. intros input Hin. repeat (apply elem_of_cons in Hin as [->|Hin]; [reflexivity|]).
    now apply not_elem_of_nil in Hin.
  - apply Hlocal. intros input Hin. repeat (apply elem_of_cons in Hin as [->|Hin]; [reflexivity|]).
    now apply not_elem_of_nil in Hin.
Defined.

(** ** The persistent registry on the example stores *)

Lemma save_then_reload_witness :
  super (Persistent.reload Scenario.parse
           (snd (Persistent.clear
                   (Persistent.save Scenario.stringify Scenario.registered))))
  = super Scenario.registered
  ∧ super (Persistent.constructor Scenario.parse (storageKey Scenario.registered)
             (storage (Persistent.save Scenario.stringify Scenario.registered)))
    = super Scenario.registered.
Proof.
  set (store := {| items := {[ "sui-messaging-channels"
                               := Scenario.stringify [("general", "0xA")] ]};
                   fits := λ _, true |}).
  assert (storage Scenario.registered = Some store) as Hstore by reflexivity.
  assert (fits store (snapshotItems Scenario.stringify Scenario.registered store) = true)
    as Hfits by reflexivity.
  assert (Scenario.stringify (Local.export (super Scenario.registered)) ≠ "")
    as Htext by (vm_compute; discriminate).
  assert (Scenario.parse (Scenario.stringify (Local.export (super Scenario.registered)))
          = Some [("general", "0xA")]) as Hparse by (vm_compute; reflexivity).
  assert ([("general", "0xA")] ≡ₚ Local.export (super Scenario.registered))
    as Hperm by reflexivity.
  pose proof (save_then_reload Scenario.stringify Scenario.parse Scenario.registered
                store [("general", "0xA")] Hstore Hfits Htext Hparse Hperm
                (proj1 general_wellFormed) general_stableNames eq_refl)
    as (_ & _ & Hclear & Hnew).
  split; assumption.
Defined.

Lemma without_store_witness :
  Persistent.save Scenario.stringify Scenario.offline = Scenario.offline
  ∧ Persistent.reload Scenario.parse Scenario.offline = Scenario.offline
  ∧ Persistent.register Scenario.stringify "general" "0xA" Scenario.offline
    = (Local.outcome (Local.register "general" "0xA") (super Scenario.offline),
       Persistent.withSuper Scenario.offline
         (Local.state (Local.register "general" "0xA") (super Scenario.offline))).
Proof.
  pose proof (without_store Scenario.stringify Scenario.parse Scenario.offline eq_refl)
    as (Hregister & _ & Hsave & Hreload).
  split; [exact Hsave|]. split; [exact Hreload|]. apply Hregister.
Defined.

Lemma rejected_register_writes_nothing_witness :
  Persistent.register Scenario.stringify "#General" "0xB" Scenario.registered
  = (Throws (mkError "Channel name #general is already registered to 0xA"),
     Scenario.registered).
Proof.
  apply (rejected_register_writes_nothing Scenario.stringify Scenario.registered
           "#General" "0xB"). reflexivity.
Defined.

Lemma writes_own_key_only_witness :
  ∃ store',
    storage (snd (Persistent.register Scenario.stringify "general" "0xA"
                    (Persistent.constructor Scenario.parse "sui-messaging-channels"
                       (Some Scenario.shared)))) = Some store'
    ∧ getItem store' "theme" = getItem Scenario.shared "theme".
Proof.
  eexists. split; [reflexivity|].
  apply (proj1 (writes_own_key_only Scenario.stringify
                  (Persistent.constructor Scenario.parse "sui-messaging-channels"
                     (Some Scenario.shared))
                  Scenario.shared "theme" eq_refl ltac:(discriminate))
           "general" "0xA").
  reflexivity.
Defined.

(** ** The local registry: what the calls leave alone *)

(** The three ways a [register] can end. *)
Lemma register_state (this : LocalChannelRegistry) (name channelId : string) :
  Local.state (Local.register name channelId) this = this
  ∨ Local.state (Local.register name channelId) this
    = {| nameToId := <[normalizeChannelName name := channelId]> (nameToId this);
         idToName := <[channelId := normalizeChannelName name]> (idToName this) |}
  ∨ ∃ old, idToName this !! channelId = Some old
           ∧ Local.state (Local.register name channelId) this
             = {| nameToId := <[normalizeChannelName name := channelId]>
                                (delete old (nameToId this));
                  idToName := <[channelId := normalizeChannelName name]> (idToName this) |}.
Proof.
  unfold_local.
  destruct (nameToId this !! normalizeChannelName name) as [existing|]; simpl;
    [destruct (negb (String.eqb existing "") && negb (String.eqb existing channelId));
       simpl; [now left|]|];
    (destruct (idToName this !! channelId) as [old|] eqn:Hold; simpl;
     [destruct (negb (String.eqb old "") && negb (String.eqb old _)); simpl|];
     first [ right; left; reflexivity | right; right; eauto ]).
Qed.

(** X21: [register] and [unregister] touch nothing but their own entries.
    After [register(name, channelId)] every other name keeps its binding,
    except the name that the id had before; and every other id keeps its
    name. After [unregister(name)] every other name keeps its binding, and
    so does every id other than the one the name was bound to. *)
Theorem calls_leave_other_entries (this : LocalChannelRegistry) (name channelId : string) :
  (∀ other, other ≠ normalizeChannelName name →
            idToName this !! channelId ≠ Some other →
            nameToId (Local.state (Local.register name channelId) this) !! other
            = nameToId this !! other)
  ∧ (∀ otherId, otherId ≠ channelId →
                idToName (Local.state (Local.register name channelId) this) !! otherId
                = idToName this !! otherId)
  ∧ (∀ other, other ≠ normalizeChannelName name →
              nameToId (Local.state (Local.unregister name) this) !! other
              = nameToId this !! other)
  ∧ (∀ otherId, nameToId this !! normalizeChannelName name ≠ Some otherId →
                idToName (Local.state (Local.unregister name) this) !! otherId
                = idToName this !! otherId).
Proof.
  split; [|split; [|split]].
  - intros other Hother Hold.
    destruct (register_state this name channelId) as [-> | [-> | (old & Hwas & ->)]];
      simpl; [reflexivity | now apply lookup_insert_ne |].
    rewrite lookup_insert_ne by auto. apply lookup_delete_ne. congruence.
  - intros otherId Hother.
    destruct (register_state this name channelId) as [-> | [-> | (old & Hwas & ->)]];
      simpl; [reflexivity | now apply lookup_insert_ne..].
  - intros other Hother. unfold Local.state.
    destruct (nameToId this !! normalizeChannelName name) as [id|] eqn:Hb.
    + destruct (decide (id = "")) as [->|Hid].
      * now rewrite unregister_falsy by auto.
      * rewrite (unregister_truthy _ _ _ Hb Hid). simpl. now apply lookup_delete_ne.
    + now rewrite unregister_falsy by auto.
  - intros otherId Hother. unfold Local.state.
    destruct (nameToId this !! normalizeChannelName name) as [id|] eqn:Hb.
    + destruct (decide (id = "")) as [->|Hid].
      * now rewrite unregister_falsy by auto.
      * rewrite (unregister_truthy _ _ _ Hb Hid). simpl. apply lookup_delete_ne. congruence.
    + now rewrite unregister_falsy by auto.
Qed.

Lemma calls_leave_other_entries_witness :
  nameToId (Local.state (Local.register "main" "0xB") Scenario.general) !! "general"
  = nameToId Scenario.general !! "general"
  ∧ idToName (Local.state (Local.unregister "main") Scenario.general) !! "0xA"
    = idToName Scenario.general !! "0xA".
Proof.
  pose proof (calls_leave_other_entries Scenario.general "main" "0xB")
    as (Hregister & _ & _ & Hunregister).
  split.
  - apply Hregister; discriminate.
  - apply Hunregister. discriminate.
Defined.

(** X22: [register] is idempotent: repeating a call with the same
    arguments right after it has the outcome of the first call and leaves
    the registry as the first call left it. *)
Theorem register_idempotent (this : LocalChannelRegistry) (name channelId : string) :
  Local.register name channelId (Local.state (Local.register name channelId) this)
  = (Local.outcome (Local.register name channelId) this,
     Local.state (Local.register name channelId) this).
Proof.
  destruct (Local.outcome (Local.register name channelId) this) as [[]|e] eqn:Hout.
  - destruct (register_binds _ _ _ Hout) as [Hname Hback].
    now apply register_same.
  - rewrite register_outcome in Hout.
    destruct (nameToId this !! normalizeChannelName name) as [existing|] eqn:Hb;
      [|discriminate].
    destruct (String.eqb existing "") eqn:E1; [discriminate|].
    destruct (String.eqb existing channelId) eqn:E2; [discriminate|].
    simpl in Hout. injection Hout as <-.
    apply String.eqb_neq in E1, E2. unfold Local.state.
    rewrite (register_throws _ _ _ _ Hb E1 E2). simpl.
    apply (register_throws _ _ _ _ Hb E1 E2).
Qed.

(** X23: the registry sees a channel name only through its normal form:
    two names with the same normal form are formatted alike, have the same
    effect and outcome in [register] and in [unregister], and, when
    [isChannelName] accepts both, resolve alike. *)
Theorem calls_depend_on_normal_form (this : LocalChannelRegistry) (x y : string) :
  normalizeChannelName x = normalizeChannelName y →
  formatChannelName x = formatChannelName y
  ∧ (∀ channelId, Local.register x channelId this = Local.register y channelId this)
  ∧ Local.unregister x this = Local.unregister y this
  ∧ (isChannelName x = true → isChannelName y = true →
     Local.resolve this x = Local.resolve this y).
Proof.
  intros Hsame.
  assert (formatChannelName x = formatChannelName y) as Hformat
    by (unfold formatChannelName; now rewrite Hsame).
  split; [exact Hformat|]. split; [|split].
  - intros channelId. unfold Local.register, Local.alreadyRegistered.
    now rewrite Hsame, Hformat.
  - unfold Local.unregister. now rewrite Hsame.
  - intros Hx Hy. unfold Local.resolve, Local.notFound.
    now rewrite Hx, Hy, Hsame, Hformat.
Qed.

Lemma calls_depend_on_normal_form_witness :
  Local.resolve Scenario.general "  #GENERAL " = Local.resolve Scenario.general "general"
  ∧ Local.unregister "  #GENERAL " Scenario.general
    = Local.unregister "general" Scenario.general.
Proof.
  pose proof (calls_depend_on_normal_form Scenario.general "  #GENERAL " "general"
                eq_refl) as (_ & _ & Hunregister & Hresolve).
  split; [now apply Hresolve | exact Hunregister].
Defined.

(** ** Names that stay stable *)

Lemma stableNames_insert (this : LocalChannelRegistry) (kept : gmap string string)
    (name id : string) (ids : gmap string string) :
  stableNames this →
  (∀ k v, kept !! k = Some v → nameToId this !! k = Some v) →
  plainStart (normalizeChannelName name) = true →
  stableNames {| nameToId := <[normalizeChannelName name := id]> kept; idToName := ids |}.
Proof.
  intros Hstable Hkept Hplain k v. simpl.
  intros [[<- _]|[_ Hk]]%lookup_insert_Some.
  - now apply normalizeChannelName_fixed.
  - apply Hkept in Hk. eauto.
Qed.

Lemma setEntries_stableNames (data : list (string * string)) :
  ∀ this,
    stableNames this →
    Forall (λ entry, plainStart (normalizeChannelName entry.1) = true) data →
    stableNames (Local.state (Local.forEach data Local.setEntry) this).
Proof.
  induction data as [|[name id] rest IH]; intros this Hstable Hplain; [exact Hstable|].
  apply Forall_cons in Hplain as [Hhead Hrest].
  rewrite forEach_cons, setEntry_state. apply IH; [|assumption].
  now apply (stableNames_insert this).
Qed.

Lemma empty_stableNames : stableNames Local.empty.
Proof. intros name id. simpl. now rewrite lookup_empty. Qed.

Lemma perform_stableNames (this : LocalChannelRegistry) (call : Call) :
  stableNames this → plainCall call → stableNames (Local.state (perform call) this).
Proof.
  intros Hstable Hplain. destruct call as [name id|name|data merge|]; simpl in *.
  - destruct (register_state this name id) as [-> | [-> | (old & _ & ->)]];
      [assumption | now apply (stableNames_insert this) |].
    apply (stableNames_insert this); [assumption | | assumption].
    now intros k v [_ ?]%lookup_delete_Some.
  - unfold Local.state.
    destruct (nameToId this !! normalizeChannelName name) as [id|] eqn:Hb.
    + destruct (decide (id = "")) as [->|Hid].
      * now rewrite unregister_falsy by auto.
      * rewrite (unregister_truthy _ _ _ Hb Hid). intros k v Hk. simpl in Hk.
        apply lookup_delete_Some in Hk as [_ Hk]. eauto.
    + now rewrite unregister_falsy by auto.
  - rewrite import_state. apply setEntries_stableNames; [|assumption].
    destruct merge; [assumption | apply empty_stableNames].
  - apply empty_stableNames.
Qed.

(** X24: when every name given to the constructor, to [register] and to
    [import] normalises to a string that begins neither with [#] nor with
    white space, every name the registry stores is left unchanged by
    another normalisation, after every call; and if the calls also keep the
    conditions under which the two maps stay inverses (non-empty names and
    ids, fresh bulk data), the maps mirror each other without empty names
    or ids, and, when the registry holds no name [__proto__], importing its
    own [export()] without merging, into whatever registry, gives the
    registry back. *)
Theorem plain_names_stay_stable
    (initialMappings : option (list (string * string))) (calls : list Call) :
  match initialMappings with
  | Some data => Forall (λ entry, plainStart (normalizeChannelName entry.1) = true) data
  | None => True
  end →
  Forall plainCall calls →
  let this := after calls (Local.constructor initialMappings) in
  stableNames this
  ∧ (match initialMappings with
     | Some data => freshEntries Local.empty data
     | None => True
     end →
     admissibleRun (Local.constructor initialMappings) calls →
     wellFormed this
     ∧ (nameToId this !! "__proto__" = None →
        ∀ other, Local.state (Local.import (Local.export this) false) other = this)).
Proof.
  intros Hinit Hcalls this.
  assert (stableNames this) as Hstable.
  { subst this.
    assert (stableNames (Local.constructor initialMappings)) as Hstart.
    { destruct initialMappings as [data|]; simpl;
        [now apply setEntries_stableNames; [apply empty_stableNames|]
        | apply empty_stableNames]. }
    revert Hstart. generalize (Local.constructor initialMappings).
    induction Hcalls as [|call rest Hcall Hrest IH]; intros start Hstart; [exact Hstart|].
    simpl. apply IH. now apply perform_stableNames. }
  split; [exact Hstable|]. intros Hfresh Hrun.
  assert (wellFormed this) as Hwf.
  { subst this. rewrite <- (firstn_all calls) at 1.
    apply after_wellFormed; [|assumption].
    destruct initialMappings as [data|]; simpl;
      [apply setEntries_wellFormed; [apply wellFormed_empty | assumption]
      | apply wellFormed_empty]. }
  split; [exact Hwf|]. intros Hnone other.
  apply import_exported; [apply Hwf | assumption | assumption | reflexivity].
Qed.

Lemma plain_names_stay_stable_witness :
  stableNames (after [Register "  #General" "0xA"; Import [("Dev ", "0xC")] true;
                      Unregister "general"]
                 (Local.constructor (Some [("Main", "0xB")])))
  ∧ Local.state
      (Local.import
         (Local.export (after [Register "  #General" "0xA"; Import [("Dev ", "0xC")] true;
                               Unregister "general"]
                          (Local.constructor (Some [("Main", "0xB")]))))
         false) Scenario.twoNames
    = after [Register "  #General" "0xA"; Import [("Dev ", "0xC")] true;
             Unregister "general"]
        (Local.constructor (Some [("Main", "0xB")])).
Proof.
  destruct (plain_names_stay_stable (Some [("Main", "0xB")])
              [Register "  #General" "0xA"; Import [("Dev ", "0xC")] true;
               Unregister "general"])
    as [Hstable Hrest].
  - repeat constructor.
  - repeat constructor.
  - split; [exact Hstable|]. apply Hrest.
    + change (freshEntries Local.empty [("Main", "0xB")]).
      apply (bool_decide_unpack _). vm_compute. exact I.
    + apply (bool_decide_unpack _). vm_compute. exact I.
    + reflexivity.
Defined.
